(** * The Led device of j5e: provider binding and timed animation engine

    A shallow embedding of [class Led] (the second module carried by
    [src/dist/moddable/gps/gps.js], lines 416-743): the constructor, the
    internal [write], the synchronous methods [on], [off], [toggle],
    [brightness], [stop], and the timer driven methods [blink], [animate],
    [pulse], [fade], [fadeIn], [fadeOut].

    Conventions of the model.
    - An ECMAScript number is an exact rational or one of [NaN],
      [+Infinity], [-Infinity]; binary64 rounding and the sign of zero are
      not represented.  The integer conversions ([x | 0], [x ^ y],
      [1 << x]) wrap to 32 bits as ToInt32 does.  What is stated of a
      value that comes out of fractional arithmetic is therefore what
      rounding to nearest preserves: its range, its order with respect to
      other values, whether it is an integer, and its exact value where
      the operands and the result are integers.
    - The private [#state] object is a record; [this] is a record holding
      [#state], [HIGH] and nothing else that changes ([LOW] is the
      constant 0, [io] is observed through the trace).
    - The helpers imported from [../util/fn.js] are not part of the
      sources at hand; [constrain], [normalizeParams] and the [timer]
      facility follow the specification and say so.
    - Closures handed to the timer are defunctionalised: a timer entry
      records which arrow function it is and the variables it captured.
    - Everything observable (provider writes, timer ticks, [step] and
      [complete] invocations, user callbacks) is appended to a trace,
      newest event first. *)

From Stdlib Require Import ZArith QArith Qround Lia Lqa Bool.
From stdpp Require Import base option list strings gmap.

Local Open Scope Z_scope.

(** ** ECMAScript numbers *)

Module Num.

Inductive number : Type :=
| Fin (q : Q)
| NaN
| PInf
| NInf.

Definition of_Z (z : Z) : number := Fin (inject_Z z).

Definition Qlt_bool (a b : Q) : bool := negb (Qle_bool b a).

(** Unary minus. *)
Definition neg (a : number) : number :=
  match a with
  | Fin q => Fin (- q)%Q
  | NaN => NaN
  | PInf => NInf
  | NInf => PInf
  end.

(** [a + b] *)
Definition add (a b : number) : number :=
  match a, b with
  | NaN, _ | _, NaN => NaN
  | Fin x, Fin y => Fin (x + y)%Q
  | PInf, NInf | NInf, PInf => NaN
  | PInf, _ | _, PInf => PInf
  | NInf, _ | _, NInf => NInf
  end.

(** [a - b] *)
Definition sub (a b : number) : number := add a (neg b).

(** An infinity of the sign of [s * q], or [NaN] when [q] is zero. *)
Definition signed_inf (positive : bool) (q : Q) : number :=
  if Qeq_bool q 0 then NaN
  else if xorb positive (Qlt_bool 0 q) then NInf else PInf.

(** [a * b] *)
Definition mul (a b : number) : number :=
  match a, b with
  | NaN, _ | _, NaN => NaN
  | Fin x, Fin y => Fin (x * y)%Q
  | Fin x, PInf | PInf, Fin x => signed_inf true x
  | Fin x, NInf | NInf, Fin x => signed_inf false x
  | PInf, PInf | NInf, NInf => PInf
  | PInf, NInf | NInf, PInf => NInf
  end.

(** [a / b]; a zero divisor counts as [+0]. *)
Definition div (a b : number) : number :=
  match a, b with
  | NaN, _ | _, NaN => NaN
  | Fin x, Fin y =>
      if Qeq_bool y 0 then signed_inf true x else Fin (x / y)%Q
  | Fin _, (PInf | NInf) => Fin 0
  | PInf, Fin y => if Qlt_bool y 0 then NInf else PInf
  | NInf, Fin y => if Qlt_bool y 0 then PInf else NInf
  | (PInf | NInf), (PInf | NInf) => NaN
  end.

(** [a < b]: false as soon as one side is [NaN]. *)
Definition lt (a b : number) : bool :=
  match a, b with
  | NaN, _ | _, NaN => false
  | Fin x, Fin y => Qlt_bool x y
  | _, NInf => false
  | NInf, _ => true
  | PInf, _ => false
  | _, PInf => true
  end.

(** [a > b] *)
Definition gt (a b : number) : bool := lt b a.

(** [a === b] on numbers. *)
Definition strict_eq (a b : number) : bool :=
  match a, b with
  | Fin x, Fin y => Qeq_bool x y
  | PInf, PInf | NInf, NInf => true
  | _, _ => false
  end.

(** [a <= b] *)
Definition le (a b : number) : bool := lt a b || strict_eq a b.

(** ToBoolean on numbers: zero and [NaN] are falsy. *)
Definition truthy (a : number) : bool :=
  match a with
  | Fin q => negb (Qeq_bool q 0)
  | NaN => false
  | PInf | NInf => true
  end.

(** [Math.min(a, b)], the function the specification uses for the cap. *)
Definition min (a b : number) : number :=
  match a, b with
  | NaN, _ | _, NaN => NaN
  | _, _ => if lt b a then b else a
  end.

(** Reduction of an integer to the signed 32-bit range. *)
Definition wrap32 (z : Z) : Z := (z + 2 ^ 31) mod 2 ^ 32 - 2 ^ 31.

(** The integer part of a rational, rounding towards zero. *)
Definition trunc (q : Q) : Z := Z.quot (Qnum q) (Zpos (Qden q)).

(** ToInt32: drop the fraction (towards zero), then wrap; the
    non-finite numbers convert to 0. *)
Definition to_int32 (a : number) : Z :=
  match a with
  | Fin q => wrap32 (trunc q)
  | NaN | PInf | NInf => 0
  end.

(** [a | 0] *)
Definition bitor0 (a : number) : number := of_Z (to_int32 a).

(** [a ^ b] *)
Definition bitxor (a b : number) : number :=
  of_Z (Z.lxor (to_int32 a) (to_int32 b)).

(** [1 << r] for an integer [r]: the count is taken modulo 32. *)
Definition shl1 (r : Z) : Z := wrap32 (Z.shiftl 1 (r mod 32)).

(** [a] is a rational between the integers [lo] and [hi]. *)
Definition between (lo hi : Z) (a : number) : Prop :=
  match a with
  | Fin q => (inject_Z lo <= q)%Q /\ (q <= inject_Z hi)%Q
  | _ => False
  end.

(** [a] is an integer valued number. *)
Definition integral (a : number) : Prop := exists z : Z, a = of_Z z.

End Num.

Import Num.

(** ** The value clamp utility *)

(** Modelled from the spec: [constrain] is imported from
    [../util/fn.js], which is not among the sources; section 4.3 gives its
    contract: [low] if [value < low], [high] if [value > high], else
    [value], with [NaN] propagating. *)
Definition constrain (value low high : number) : number :=
  if lt value low then low
  else if gt value high then high
  else value.

(** ** Values crossing the public interface *)

(** A user supplied function is known by an identifier; invoking it is
    recorded in the trace.  What such a function does to the device it can
    only do through the public methods, and every place where the class
    invokes one is the last statement of a timer tick, so its effect on
    the device is that of the same method calls made right after the
    tick: the runs considered below cover it. *)
Definition callback : Type := nat.

(** The first argument of [blink]: anything the caller may pass. *)
Inductive jsval : Type :=
| VUndefined
| VNumber (n : number)
| VFunction (f : callback)
| VString (s : string).

(** The [time] argument of [pulse], [fade], [fadeIn] and [fadeOut]:
    omitted, a number, or the callback moved one place forward. *)
Inductive time_arg : Type :=
| TOmitted
| TNumber (n : number)
| TFunction (f : callback).

(** Handles of the timer facility; they are truthy objects for the tests
    [if (this.#state.interval)]. *)
Definition handle : Type := nat.

Inductive event : Type :=
| IoWrite (v : number)        (* this.io.write(v) *)
| Tick (h : handle)           (* the timer ran the callback of handle h *)
| StepCall (delta : number)   (* opts.step(delta) *)
| CompleteCall                (* opts.complete() *)
| UserCall (f : callback).    (* a user function was invoked *)

(** ** The device *)

(** The private [#state] object. *)
Record state : Type := mkState {
  sink : bool;
  isRunning : bool;
  value : number;
  direction : Z;
  mode : option Z;
  interval : option handle
}.

(** The field initialiser of [#state]. *)
Definition initial_state : state :=
  {| sink := false; isRunning := false; value := Fin 0; direction := 1;
     mode := None; interval := None |}.

Record Led : Type := mkLed {
  priv : state;
  HIGH : Z
}.

(** [this.LOW = 0], assigned once by the constructor. *)
Definition LOW : Z := 0.

(** The arrow functions [step] built by [pulse] and [fade], with the
    variables they capture. *)
Inductive step_closure : Type :=
| PulseStep (update : number) (direction : Z)
| FadeStep (previous update : number).

(** The arrow functions [complete] built by [pulse] and [fade]. *)
Inductive complete_closure : Type :=
| PulseComplete (time : number) (callback : option callback)
| FadeComplete (callback : option callback).

(** The [opts] object of [animate]. *)
Record animation : Type := mkAnimation {
  duration : number;
  delta : option (number -> number);
  complete : option complete_closure;
  step : step_closure;
  delay : option number
}.

(** The arrow functions handed to [timer.setInterval]. *)
Inductive timer_callback : Type :=
| BlinkTick (callback : option callback)
| AnimateTick (start : Z) (opts : animation).

Record timer_entry : Type := mkTimer {
  on_tick : timer_callback;
  period : jsval
}.

(** The device together with what surrounds it: the timer facility, the
    clock read by [Date.now()], and the trace of observable events. *)
Record world : Type := mkWorld {
  led : Led;
  timers : gmap handle timer_entry;
  next_handle : handle;
  now : Z;
  trace : list event
}.

Definition st (w : world) : state := priv (led w).

Definition with_state (f : state -> state) (w : world) : world :=
  {| led := {| priv := f (st w); HIGH := HIGH (led w) |};
     timers := timers w; next_handle := next_handle w; now := now w;
     trace := trace w |}.

Definition set_value (v : number) : world -> world :=
  with_state (fun s =>
    {| sink := sink s; isRunning := isRunning s; value := v;
       direction := direction s; mode := mode s; interval := interval s |}).

Definition set_direction (d : Z) : world -> world :=
  with_state (fun s =>
    {| sink := sink s; isRunning := isRunning s; value := value s;
       direction := d; mode := mode s; interval := interval s |}).

Definition set_isRunning (b : bool) : world -> world :=
  with_state (fun s =>
    {| sink := sink s; isRunning := b; value := value s;
       direction := direction s; mode := mode s; interval := interval s |}).

Definition set_interval (i : option handle) : world -> world :=
  with_state (fun s =>
    {| sink := sink s; isRunning := isRunning s; value := value s;
       direction := direction s; mode := mode s; interval := i |}).

Definition log (e : event) (w : world) : world :=
  {| led := led w; timers := timers w; next_handle := next_handle w;
     now := now w; trace := e :: trace w |}.

(** ** The timer facility *)

(** Modelled from the spec: [timer] is imported from [../util/fn.js],
    which is not among the sources; section 4.4 gives its contract.
    [setInterval] registers a repeating callback under a fresh handle and
    returns the handle. *)
Definition setInterval (cb : timer_callback) (ms : jsval) (w : world)
  : handle * world :=
  (next_handle w,
   {| led := led w;
      timers := <[next_handle w := mkTimer cb ms]> (timers w);
      next_handle := S (next_handle w); now := now w; trace := trace w |}).

(** Modelled from the spec: [clearInterval] of section 4.4 cancels a
    handle; on a cancelled or unknown handle it does nothing. *)
Definition clearInterval (h : handle) (w : world) : world :=
  {| led := led w; timers := delete h (timers w);
     next_handle := next_handle w; now := now w; trace := trace w |}.

(** ** Methods of the class *)

(** [this.io.write(v)]: the provider is outside the class; the value it
    receives is recorded. *)
Definition io_write (v : number) : world -> world := log (IoWrite v).

Definition write (w : world) : world :=
  let value := constrain (value (st w)) (of_Z LOW) (of_Z (HIGH (led w))) in
  let value :=
    if sink (st w) then sub (of_Z (HIGH (led w))) value else value in
  io_write (bitor0 value) w.

Definition on (w : world) : world :=
  write (set_value (of_Z (HIGH (led w))) w).

Definition off (w : world) : world :=
  write (set_value (of_Z LOW) w).

(** The getter [isOn]: [!!this.#state.value]. *)
Definition isOn (w : world) : bool := truthy (value (st w)).

Definition toggle (w : world) : world :=
  if isOn w then off w else on w.

Definition stop (w : world) : world :=
  let w :=
    match interval (st w) with
    | Some h => clearInterval h w
    | None => w
    end in
  let w := set_interval None w in
  set_isRunning false w.

(** [blink(duration=100, callback)]; [callback] is [None] when the
    argument is not a function. *)
Definition blink (duration : jsval) (callback : option callback)
    (w : world) : world :=
  let duration :=
    match duration with VUndefined => VNumber (of_Z 100) | d => d end in
  let w := stop w in
  let '(duration, callback) :=
    match duration with
    | VFunction f => (VNumber (of_Z 100), Some f)
    | d => (d, callback)
    end in
  let w := set_isRunning true w in
  let '(h, w) := setInterval (BlinkTick callback) duration w in
  set_interval (Some h) w.

Definition brightness (value : number) (w : world) : world :=
  let w := set_value value w in
  io_write value w.

Definition animate (opts : animation) (w : world) : world :=
  let start := now w in
  let w :=
    match interval (st w) with
    | Some h => clearInterval h w
    | None => w
    end in
  let duration :=
    if truthy (duration opts) then duration opts else of_Z 1000 in
  let delta :=
    match delta opts with
    | Some f => f
    | None => fun val => val
    end in
  let opts :=
    {| duration := duration; delta := Some delta; complete := complete opts;
       step := step opts; delay := delay opts |} in
  let w := set_isRunning true w in
  let ms :=
    match delay opts with
    | Some d => if truthy d then d else of_Z 10
    | None => of_Z 10
    end in
  let '(h, w) := setInterval (AnimateTick start opts) (VNumber ms) w in
  set_interval (Some h) w.

Definition pulse (time : time_arg) (callback : option callback)
    (w : world) : world :=
  let time := match time with TOmitted => TNumber (of_Z 1000) | t => t end in
  let HIGH := of_Z (HIGH (led w)) in
  let target :=
    if negb (strict_eq (value (st w)) (of_Z 0))
    then (if strict_eq (value (st w)) HIGH then of_Z 0 else HIGH)
    else HIGH in
  let direction := if strict_eq target HIGH then 1 else -1 in
  let update :=
    if le (value (st w)) target then target
    else sub (value (st w)) target in
  let '(time, callback) :=
    match time with
    | TFunction f => (of_Z 1000, Some f)
    | TNumber n => (n, callback)
    | TOmitted => (of_Z 1000, callback)
    end in
  animate
    {| duration := time; delta := None;
       complete := Some (PulseComplete time callback);
       step := PulseStep update direction; delay := None |} w.

Definition fade (val : number) (time : time_arg)
    (callback : option callback) (w : world) : world :=
  let time := match time with TOmitted => TNumber (of_Z 1000) | t => t end in
  let previous :=
    if truthy (value (st w)) then value (st w) else of_Z 0 in
  let update := sub val (value (st w)) in
  let '(time, callback) :=
    match time with
    | TFunction f => (of_Z 1000, Some f)
    | TNumber n => (n, callback)
    | TOmitted => (of_Z 1000, callback)
    end in
  animate
    {| duration := time; delta := None;
       complete := Some (FadeComplete callback);
       step := FadeStep previous update; delay := None |} w.

Definition fadeIn (time : time_arg) (callback : option callback)
    (w : world) : world :=
  let time := match time with TOmitted => TNumber (of_Z 1000) | t => t end in
  fade (of_Z (HIGH (led w))) time callback w.

Definition fadeOut (time : time_arg) (callback : option callback)
    (w : world) : world :=
  let time := match time with TOmitted => TNumber (of_Z 1000) | t => t end in
  fade (of_Z LOW) time callback w.

(** ** The arrow functions at work *)

(** A user callback behind [typeof callback === "function"]. *)
Definition call_user (callback : option callback) (w : world) : world :=
  match callback with
  | Some f => log (UserCall f) w
  | None => w
  end.

(** [opts.step(delta)] *)
Definition run_step (s : step_closure) (delta : number) (w : world)
  : world :=
  let w := log (StepCall delta) w in
  match s with
  | PulseStep update direction =>
      let value := mul update delta in
      let value :=
        if Z.eqb direction (-1)
        then bitxor value (of_Z (HIGH (led w))) else value in
      let w := set_value value w in
      let w := set_direction direction w in
      write w
  | FadeStep previous update =>
      let value := add previous (mul update delta) in
      let w := set_value value w in
      write w
  end.

(** [opts.complete()] *)
Definition run_complete (c : complete_closure) (w : world) : world :=
  let w := log CompleteCall w in
  match c with
  | PulseComplete time callback =>
      let w := pulse (TNumber time) callback w in
      call_user callback w
  | FadeComplete callback => call_user callback w
  end.

(** The progress ratio as [animate] computes it. *)
Definition progress_of (lapsed : Z) (duration : number) : number :=
  let progress := div (of_Z lapsed) duration in
  if gt progress (of_Z 1) then of_Z 1 else progress.

Definition apply_delta (f : option (number -> number)) (p : number)
  : number :=
  match f with
  | Some f => f p
  | None => p
  end.

(** The callback [animate] hands to [timer.setInterval]. *)
Definition animate_tick (start : Z) (opts : animation) (w : world)
  : world :=
  let lapsed := now w - start in
  let progress := progress_of lapsed (duration opts) in
  let delta := apply_delta (delta opts) progress in
  let w := run_step (step opts) delta w in
  if strict_eq progress (of_Z 1) then
    match complete opts with
    | Some c => run_complete c w
    | None => w
    end
  else w.

(** The callback [blink] hands to [timer.setInterval]. *)
Definition blink_tick (callback : option callback) (w : world) : world :=
  let w := toggle w in
  call_user callback w.

Definition run_timer (cb : timer_callback) (w : world) : world :=
  match cb with
  | BlinkTick callback => blink_tick callback w
  | AnimateTick start opts => animate_tick start opts w
  end.

(** ** Runs *)

(** The public methods (section 6 of the specification). *)
Inductive method : Type :=
| On
| Off
| Toggle
| Blink (duration : jsval) (callback : option callback)
| Brightness (value : number)
| Pulse (time : time_arg) (callback : option callback)
| Fade (val : number) (time : time_arg) (callback : option callback)
| FadeIn (time : time_arg) (callback : option callback)
| FadeOut (time : time_arg) (callback : option callback)
| Stop.

Definition call (m : method) (w : world) : world :=
  match m with
  | On => on w
  | Off => off w
  | Toggle => toggle w
  | Blink d cb => blink d cb w
  | Brightness v => brightness v w
  | Pulse t cb => pulse t cb w
  | Fade v t cb => fade v t cb w
  | FadeIn t cb => fadeIn t cb w
  | FadeOut t cb => fadeOut t cb w
  | Stop => stop w
  end.

(** What happens to a device: the program calls a method, time passes,
    or the timer facility runs the callback of a handle.  Only a handle
    that is still registered has its callback run; when the facility
    chooses to run it is left open. *)
Inductive input : Type :=
| Call (m : method)
| Elapse (ms : N)
| Fire (h : handle).

Definition elapse (ms : N) (w : world) : world :=
  {| led := led w; timers := timers w; next_handle := next_handle w;
     now := now w + Z.of_N ms; trace := trace w |}.

Definition fire (h : handle) (w : world) : world :=
  match timers w !! h with
  | Some e => run_timer (on_tick e) (log (Tick h) w)
  | None => w
  end.

Definition exec (i : input) (w : world) : world :=
  match i with
  | Call m => call m w
  | Elapse ms => elapse ms w
  | Fire h => fire h w
  end.

Definition run (ins : list input) (w : world) : world :=
  foldl (fun w i => exec i w) w ins.

(** ** Construction *)

Inductive error : Type :=
| InvalidParameterError
| ProviderResolutionError
| TypeError.

(** How an evaluation ends: normally with a value, or by throwing (for
    the body of an [async] function: the promise is fulfilled or
    rejected). *)
Inductive completion (A : Type) : Type :=
| Normal (a : A)
| Throw (e : error).
Arguments Normal {A} a.
Arguments Throw {A} e.

#[global] Instance completion_ret : MRet completion := @Normal.
#[global] Instance completion_bind : MBind completion :=
  fun A B f c =>
    match c with
    | Normal a => f a
    | Throw e => Throw e
    end.

Inductive pin_id : Type :=
| PinNumber (n : Z)
| PinName (s : string).

(** The canonical IO options. *)
Record io_options : Type := mkIo {
  io_provider : option string;
  io_pin : option pin_id
}.

(** The first constructor argument. *)
Inductive io_arg : Type :=
| IoPin (p : pin_id)
| IoObject (o : io_options)
| IoOther.

(** The device options. *)
Record device_options : Type := mkDevice {
  opt_sink : option bool;
  opt_breakout : option string
}.

(** The second constructor argument; [None] when omitted or
    [undefined]. *)
Definition device_arg : Type := option device_options.

(** Modelled from the spec: [normalizeParams] is imported from
    [../util/fn.js], which is not among the sources; section 4.1 gives its
    contract: a number or string becomes [{pin: io}], a mapping passes
    through, an omitted [device] becomes the empty mapping, anything else
    fails with [InvalidParameterError]. *)
Definition normalizeParams (io : io_arg) (device : device_arg)
  : completion (io_options * device_options) :=
  let deviceOpts := default (mkDevice None None) device in
  match io with
  | IoPin p => Normal (mkIo None (Some p), deviceOpts)
  | IoObject o => Normal (o, deviceOpts)
  | IoOther => Throw InvalidParameterError
  end.

(** What the class uses of a provider: its optional [resolution]. *)
Record provider : Type := mkProvider {
  resolution : option Z
}.

(** Reading the property [sink] of the constructor argument [device]:
    a [TypeError] when [device] is [undefined]. *)
Definition get_sink (device : device_arg) : completion (option bool) :=
  match device with
  | Some o => Normal (opt_sink o)
  | None => Throw TypeError
  end.

(** [(1 << resolution) - 1] when [resolution] is truthy, else 1. *)
Definition high_of (resolution : option Z) : Z :=
  match resolution with
  | Some r => if Z.eqb r 0 then 1 else shl1 r - 1
  | None => 1
  end.

(** The constructor.  [getProvider] is the provider resolver, outside
    the class; it is given the canonical IO options and the default
    provider path. *)
Definition Led_constructor
    (getProvider : io_options -> string -> completion provider)
    (io : io_arg) (device : device_arg) : completion Led :=
  '(ioOpts, deviceOpts) ← normalizeParams io device;
  Provider ← getProvider ioOpts "builtin/digital"%string;
  sink_option ← get_sink device;
  let state :=
    if default false sink_option
    then {| sink := true; isRunning := isRunning initial_state;
            value := value initial_state;
            direction := direction initial_state;
            mode := mode initial_state;
            interval := interval initial_state |}
    else initial_state in
  mret {| priv := state; HIGH := high_of (resolution Provider) |}.

(** A device fresh from the constructor, with no timer registered. *)
Definition boot (l : Led) (t0 : Z) : world :=
  {| led := l; timers := ∅; next_handle := 1%nat; now := t0; trace := [] |}.

(** The worlds a constructed device can be in. *)
Definition reachable (w : world) : Prop :=
  exists getProvider io device l t0 ins,
    Led_constructor getProvider io device = Normal l /\
    w = run ins (boot l t0).

(** Calling a public method, as a completion: the class has no [throw]
    and no property access that can fail after construction. *)
Definition invoke (m : method) (w : world) : completion world :=
  Normal (call m w).

(** ** Notions used by the statements *)

(** The part of a world the timer bookkeeping lives in. *)
Definition timing (w : world)
  : option handle * bool * gmap handle timer_entry * handle :=
  (interval (st w), isRunning (st w), timers w, next_handle w).

(** [#state.interval] names the one registered timer, or there is none;
    [isRunning] says which. *)
Definition coherent (w : world) : Prop :=
  match interval (st w) with
  | Some h =>
      isRunning (st w) = true /\ (h < next_handle w)%nat /\
      exists e, timers w = {[ h := e ]}
  | None => isRunning (st w) = false /\ timers w = ∅
  end.

(** How often the callback of handle [h] was run. *)
Fixpoint ticks_of (h : handle) (tr : list event) : nat :=
  match tr with
  | [] => 0
  | Tick h' :: tr => (if Nat.eqb h h' then 1 else 0) + ticks_of h tr
  | _ :: tr => ticks_of h tr
  end.

(** How often [opts.step] was invoked. *)
Fixpoint step_calls (tr : list event) : nat :=
  match tr with
  | [] => 0
  | StepCall _ :: tr => S (step_calls tr)
  | _ :: tr => step_calls tr
  end.

(** How often [opts.complete] was invoked. *)
Fixpoint complete_calls (tr : list event) : nat :=
  match tr with
  | [] => 0
  | CompleteCall :: tr => S (complete_calls tr)
  | _ :: tr => complete_calls tr
  end.

(** How often the user function [f] was invoked. *)
Fixpoint user_calls (f : callback) (tr : list event) : nat :=
  match tr with
  | [] => 0
  | UserCall g :: tr => (if Nat.eqb f g then 1 else 0) + user_calls f tr
  | _ :: tr => user_calls f tr
  end.

(** The methods that start an animation. *)
Definition starts_animation (m : method) : bool :=
  match m with
  | Blink _ _ | Pulse _ _ | Fade _ _ _ | FadeIn _ _ | FadeOut _ _ => true
  | _ => false
  end.

(** A [duration] for [blink] that is not a function and not a positive
    number. *)
Definition degenerate (d : jsval) : Prop :=
  match d with
  | VNumber n => lt (of_Z 0) n = false
  | VString _ => True
  | VUndefined | VFunction _ => False
  end.


(** What [write] would hand to the provider for a stored value [v]. *)
Definition written (HIGH : Z) (sink : bool) (v : number) : number :=
  let c := constrain v (of_Z LOW) (of_Z HIGH) in
  bitor0 (if sink then sub (of_Z HIGH) c else c).

(** A handle that is no longer registered and cannot be handed out
    again. *)
Definition retired (h : handle) (w : world) : Prop :=
  timers w !! h = None /\ (h < next_handle w)%nat.

(** From [w] to [w'] the handle [h] stayed retired and did not tick. *)
Definition silent (h : handle) (w w' : world) : Prop :=
  retired h w' /\ ticks_of h (trace w') = ticks_of h (trace w).

(** The timer facility running the callback of [h] every [ms]
    milliseconds, [n] times. *)
Definition ticks_every (n : nat) (ms : N) (h : handle) : list input :=
  concat (replicate n [Elapse ms; Fire h]).

(** The ranges the constructor can produce besides the broken one. *)
Definition pwm_range (h : Z) : Prop :=
  exists k, 0 <= k <= 30 /\ h = 2 ^ k - 1.

(** A time argument that is not a negative number. *)
Definition valid_time (t : time_arg) : Prop :=
  match t with
  | TNumber n => lt n (of_Z 0) = false
  | TOmitted | TFunction _ => True
  end.

(** A call whose numeric arguments respect the documented ranges:
    brightness values and fade targets in [[LOW, HIGH]], animation times
    not negative. *)
Definition valid_method (h : Z) (m : method) : Prop :=
  match m with
  | Brightness v => between LOW h v
  | Fade v t _ => between LOW h v /\ valid_time t
  | Pulse t _ | FadeIn t _ | FadeOut t _ => valid_time t
  | On | Off | Toggle | Blink _ _ | Stop => True
  end.

(** An input with a valid call, or no call at all. *)
Definition valid_input (h : Z) (i : input) : Prop :=
  match i with
  | Call m => valid_method h m
  | Elapse _ | Fire _ => True
  end.

(** What the invariant records of a [step] closure: it maps progress
    in [[0, 1]] into the range. *)
Definition step_ok (h : Z) (s : step_closure) : Prop :=
  match s with
  | PulseStep update _ => between 0 h update
  | FadeStep previous update =>
      between 0 h previous /\ between 0 h (add previous update)
  end.

(** A [complete] closure re-arms with a valid time. *)
Definition complete_ok (c : option complete_closure) : Prop :=
  match c with
  | Some (PulseComplete time _) => lt time (of_Z 0) = false
  | Some (FadeComplete _) | None => True
  end.

(** A registered timer, seen at time [t] on a device of range [h]. *)
Definition timer_ok (h : Z) (t : Z) (e : timer_entry) : Prop :=
  match on_tick e with
  | BlinkTick _ => True
  | AnimateTick start opts =>
      start <= t /\
      truthy (duration opts) = true /\ lt (duration opts) (of_Z 0) = false /\
      (forall p, apply_delta (delta opts) p = p) /\
      step_ok h (step opts) /\ complete_ok (complete opts)
  end.

(** The invariant behind the range of the stored value. *)
Definition sound (w : world) : Prop :=
  pwm_range (HIGH (led w)) /\
  between LOW (HIGH (led w)) (value (st w)) /\
  map_Forall (fun _ e => timer_ok (HIGH (led w)) (now w) e) (timers w).

(** The extreme [pulse] heads for, in the words of the specification:
    0 when the value is at [HIGH], [HIGH] otherwise. *)
Definition pulse_target (HIGH : Z) (v : number) : number :=
  if strict_eq v (of_Z HIGH) then of_Z 0 else of_Z HIGH.


(** The timer facility runs the registered callback once, [ms]
    milliseconds later. *)
Definition tick_after (ms : N) (w : world) : world :=
  match interval (st w) with
  | Some h => fire h (elapse ms w)
  | None => elapse ms w
  end.



(** The milliseconds a list of waits adds up to. *)
Definition total (waits : list N) : Z := Z.of_N (foldr N.add 0%N waits).

(** The device is running a pulse of period [t] with callback [f],
    armed at time [start] and heading for [target]. *)
Definition pulsing (H : Z) (t : Q) (f : callback) (target : number)
    (start : Z) (w : world) : Prop :=
  HIGH (led w) = H /\ isRunning (st w) = true /\
  exists h u,
    interval (st w) = Some h /\
    strict_eq u (of_Z H) = true /\
    timers w !! h =
      Some (mkTimer
              (AnimateTick start
                 (mkAnimation (Fin t) (Some (fun val => val))
                    (Some (PulseComplete (Fin t) (Some f)))
                    (PulseStep u
                       (if strict_eq target (of_Z H) then 1 else -1))
                    None))
              (VNumber (of_Z 10))).

(** The values handed to the provider, newest first. *)
Fixpoint provider_log (tr : list event) : list number :=
  match tr with
  | [] => []
  | IoWrite v :: tr => v :: provider_log tr
  | _ :: tr => provider_log tr
  end.

(** The pin level for a lit ([lit = true]) or dark device: a sink
    device is lit by the low level. *)
Definition level (H : Z) (sink lit : bool) : number :=
  of_Z (if xorb sink lit then H else 0).

(** An input that is not a method call. *)
Definition timer_only (i : input) : Prop :=
  match i with
  | Call _ => False
  | Elapse _ | Fire _ => True
  end.

(** An integer between [LOW] and [H]. *)
Definition integer_level (H : Z) (v : number) : Prop :=
  exists z, v = of_Z z /\ LOW <= z <= H.

(** An input that is not a call of [brightness]. *)
Definition no_brightness (i : input) : Prop :=
  match i with
  | Call (Brightness _) => False
  | _ => True
  end.

(** What construction fixes: the range, the drive and the mode. *)
Definition config (w : world) : Z * bool * option Z :=
  (HIGH (led w), sink (st w), mode (st w)).

(** The device is running a fade over [t] ms armed at time [start], whose
    [step] closure captured [previous] and [update]. *)
Definition fading (t : Q) (previous update : number)
    (cb : option callback) (start : Z) (w : world) : Prop :=
  isRunning (st w) = true /\
  exists h,
    interval (st w) = Some h /\
    timers w !! h =
      Some (mkTimer
              (AnimateTick start
                 (mkAnimation (Fin t) (Some (fun val => val))
                    (Some (FadeComplete cb))
                    (FadeStep previous update) None))
              (VNumber (of_Z 10))).

(** The timer facility runs the registered callback after each of the
    given waits. *)
Definition ticks_after (waits : list N) (w : world) : world :=
  foldl (fun w ms => tick_after ms w) w waits.

(** The two directions of a pulse. *)
Definition unit_direction (d : Z) : Prop := d = 1 \/ d = -1.

(** The direction a registered timer may store into [#state]. *)
Definition timer_direction_ok (e : timer_entry) : Prop :=
  match on_tick e with
  | AnimateTick _ opts =>
      match step opts with
      | PulseStep _ d => unit_direction d
      | FadeStep _ _ => True
      end
  | BlinkTick _ => True
  end.

Definition directions_ok (w : world) : Prop :=
  unit_direction (direction (st w)) /\
  map_Forall (fun _ e => timer_direction_ok e) (timers w).

(** * Properties *)

(** Closes [Qeq_bool a b = false] between distinct rationals. *)
Ltac Qeq_bool_false :=
  match goal with
  | |- Qeq_bool ?a ?b = false =>
      let E := fresh "E" in
      destruct (Qeq_bool a b) eqn:E; [|reflexivity];
      apply Qeq_bool_iff in E; unfold Qeq in E; simpl in E;
      first [lia | lra]
  end.

(** ** Arithmetic of the number model *)

Lemma Qlt_bool_true a b : Qlt_bool a b = true <-> (a < b)%Q.
Proof.
  unfold Qlt_bool. rewrite negb_true_iff.
  destruct (Qle_bool b a) eqn:E.
  - apply Qle_bool_iff in E. split; [discriminate|].
    intros H. exfalso. exact (Qlt_not_le _ _ H E).
  - split; [|reflexivity]. intros _. apply Qnot_le_lt.
    intros H. apply Qle_bool_iff in H. congruence.
Qed.

Lemma Qlt_bool_false a b : Qlt_bool a b = false <-> (b <= a)%Q.
Proof. unfold Qlt_bool. rewrite negb_false_iff. apply Qle_bool_iff. Qed.

Lemma wrap32_small z : - 2 ^ 31 <= z < 2 ^ 31 -> wrap32 z = z.
Proof. intros H. unfold wrap32. rewrite Z.mod_small; lia. Qed.

Lemma trunc_bounds q h :
  (0 <= q)%Q -> (q <= inject_Z h)%Q -> 0 <= trunc q <= h.
Proof.
  destruct q as [n d]. unfold Qle, trunc; simpl. intros H0 Hh.
  rewrite Z.mul_1_r in *.
  rewrite Z.quot_div_nonneg by lia.
  split.
  - apply Z.div_pos; lia.
  - apply Z.div_le_upper_bound; lia.
Qed.

Lemma trunc_inject_Z z : trunc (inject_Z z) = z.
Proof. unfold trunc; simpl. apply Z.quot_1_r. Qed.

Lemma trunc_Qeq q z : (q == inject_Z z)%Q -> trunc q = z.
Proof.
  destruct q as [n d]. unfold Qeq, trunc; simpl. intros H.
  rewrite Z.mul_1_r in H. subst n. apply Z.quot_mul. lia.
Qed.

Lemma trunc_floor q :
  (0 <= q)%Q ->
  (inject_Z (trunc q) <= q)%Q /\ (q < inject_Z (trunc q) + 1)%Q.
Proof.
  intros H0.
  assert (E : trunc q = Qfloor q).
  { destruct q as [n d]. unfold trunc, Qfloor; simpl.
    unfold Qle in H0; simpl in H0. apply Z.quot_div_nonneg; lia. }
  rewrite E. split; [apply Qfloor_le|].
  change 1%Q with (inject_Z 1). rewrite <- inject_Z_plus. apply Qlt_floor.
Qed.

Lemma constrain_between (v : number) (h : Z) :
  0 <= h -> v <> NaN -> between 0 h (constrain v (of_Z LOW) (of_Z h)).
Proof.
  intros Hh Hv. unfold constrain, gt, LOW, of_Z.
  destruct v as [q| | |]; simpl; try congruence.
  - destruct (Qlt_bool q (inject_Z 0)) eqn:E1; simpl.
    + split; [apply Qle_refl|]. rewrite <- Zle_Qle. lia.
    + apply Qlt_bool_false in E1.
      destruct (Qlt_bool (inject_Z h) q) eqn:E2; simpl.
      * split; [|apply Qle_refl]. rewrite <- Zle_Qle. lia.
      * apply Qlt_bool_false in E2. auto.
  - split; [|apply Qle_refl]. rewrite <- Zle_Qle. lia.
  - split; [apply Qle_refl|]. rewrite <- Zle_Qle. lia.
Qed.

Lemma constrain_id (q : Q) (h : Z) :
  (inject_Z LOW <= q)%Q -> (q <= inject_Z h)%Q ->
  constrain (Fin q) (of_Z LOW) (of_Z h) = Fin q.
Proof.
  intros Hlo Hhi. unfold constrain, gt, of_Z; simpl.
  assert (E1 : Qlt_bool q (inject_Z LOW) = false)
    by (apply Qlt_bool_false; exact Hlo).
  assert (E2 : Qlt_bool (inject_Z h) q = false)
    by (apply Qlt_bool_false; exact Hhi).
  rewrite E1, E2. reflexivity.
Qed.

Lemma sub_between (v : number) (h : Z) :
  between 0 h v -> between 0 h (sub (of_Z h) v).
Proof.
  destruct v as [q| | |]; simpl; try tauto.
  intros [H0 Hh]. change (inject_Z 0) with 0%Q in *. split; lra.
Qed.

Lemma to_int32_between (v : number) (h : Z) :
  h < 2 ^ 31 -> between 0 h v ->
  0 <= to_int32 v <= h /\ forall q, v = Fin q -> to_int32 v = trunc q.
Proof.
  intros Hh. destruct v as [q| | |]; simpl; try tauto.
  intros [H0 Hq]. pose proof (trunc_bounds q h H0 Hq) as Hb.
  rewrite wrap32_small by lia. split; [exact Hb|].
  intros q' [= <-]. reflexivity.
Qed.

(** ** What [write] hands to the provider *)

Lemma write_trace (w : world) :
  trace (write w) =
  IoWrite (written (HIGH (led w)) (sink (st w)) (value (st w))) :: trace w.
Proof. reflexivity. Qed.

(** What [write] hands over, in the arithmetic of the model. *)
Lemma write_value (w : world) :
  0 <= HIGH (led w) < 2 ^ 31 ->
  exists z : Z,
    trace (write w) = IoWrite (of_Z z) :: trace w /\
    LOW <= z <= HIGH (led w) /\
    forall q : Q,
      value (st w) = Fin q ->
      (inject_Z LOW <= q)%Q -> (q <= inject_Z (HIGH (led w)))%Q ->
      z = if sink (st w) then trunc (inject_Z (HIGH (led w)) - q)
          else trunc q.
Proof.
  intros [H0 H31]. unfold write, io_write, bitor0.
  set (h := HIGH (led w)) in *.
  set (c := constrain (value (st w)) (of_Z LOW) (of_Z h)).
  eexists. split; [reflexivity|].
  assert (Hdec : value (st w) = NaN \/ value (st w) <> NaN)
    by (destruct (value (st w)); auto; right; discriminate).
  destruct Hdec as [Hnan|Hnan].
  - subst c. rewrite Hnan. unfold constrain; simpl.
    destruct (sink (st w)); simpl; (split; [unfold LOW; lia|]);
      intros q Hq; discriminate.
  - pose proof (constrain_between _ h H0 Hnan) as Hc. fold c in Hc.
    assert (Hin : forall q, value (st w) = Fin q ->
              (inject_Z LOW <= q)%Q -> (q <= inject_Z h)%Q -> c = Fin q).
    { intros q Hq Hlo Hhi. subst c. rewrite Hq.
      apply constrain_id; assumption. }
    destruct (sink (st w)).
    + destruct (to_int32_between _ h H31 (sub_between _ h Hc)) as [Hb _].
      split; [unfold LOW; lia|].
      intros q Hq Hlo Hhi. rewrite (Hin q Hq Hlo Hhi) in Hc |- *.
      destruct (to_int32_between _ h H31 (sub_between _ h Hc)) as [_ Ht].
      apply (Ht _ eq_refl).
    + destruct (to_int32_between _ h H31 Hc) as [Hb Ht].
      split; [unfold LOW; lia|].
      intros q Hq Hlo Hhi. apply Ht. auto.
Qed.

(** C10: whatever the stored value is, [write] hands the provider an
    integer between [LOW] and [HIGH].  For a stored value within the
    range it is that value with its fraction dropped on a source device;
    on a sink device it is [HIGH - value] exactly when the value is an
    integer, and within one of [HIGH - value] otherwise. *)
Theorem write_hands_integer_in_range (w : world) :
  0 <= HIGH (led w) < 2 ^ 31 ->
  exists z : Z,
    trace (write w) = IoWrite (of_Z z) :: trace w /\
    LOW <= z <= HIGH (led w) /\
    (forall q : Q,
       value (st w) = Fin q ->
       (inject_Z LOW <= q)%Q -> (q <= inject_Z (HIGH (led w)))%Q ->
       if sink (st w)
       then (inject_Z (HIGH (led w)) - q - 1 < inject_Z z)%Q /\
            (inject_Z z < inject_Z (HIGH (led w)) - q + 1)%Q
       else z = trunc q) /\
    (forall k : Z,
       value (st w) = of_Z k -> LOW <= k <= HIGH (led w) ->
       z = if sink (st w) then HIGH (led w) - k else k).
Proof.
  intros HH. destruct (write_value w HH) as (z & Htr & Hz & Hq).
  exists z. split; [exact Htr|]. split; [exact Hz|]. split.
  - intros q Hv Hlo Hhi. specialize (Hq q Hv Hlo Hhi).
    destruct (sink (st w)); [|exact Hq].
    destruct (trunc_floor (inject_Z (HIGH (led w)) - q)) as [Hle Hlt];
      [lra|].
    rewrite <- Hq in Hle, Hlt. split; lra.
  - intros k Hv Hk.
    assert (Hlo : (inject_Z LOW <= inject_Z k)%Q)
      by (rewrite <- Zle_Qle; lia).
    assert (Hhi : (inject_Z k <= inject_Z (HIGH (led w)))%Q)
      by (rewrite <- Zle_Qle; lia).
    specialize (Hq (inject_Z k) Hv Hlo Hhi).
    destruct (sink (st w)).
    + rewrite Hq. apply trunc_Qeq.
      unfold Qminus. rewrite <- inject_Z_opp, <- inject_Z_plus. reflexivity.
    + rewrite Hq. apply trunc_inject_Z.
Qed.

(** A sink device with an 8 bit range: for the stored value 7 the
    provider receives 248, for 7/2 it receives 251 or 252. *)
Lemma write_hands_integer_in_range_witness :
  (exists z : Z,
     trace (write (boot (mkLed (mkState true false (of_Z 7) 1 None None)
                           255) 0)) = [IoWrite (of_Z z)] /\
     z = 248) /\
  (exists z : Z,
     trace (write (boot (mkLed (mkState true false (Fin (7 # 2)) 1 None None)
                           255) 0)) = [IoWrite (of_Z z)] /\
     251 <= z <= 252).
Proof.
  split.
  - destruct (write_hands_integer_in_range
                (boot (mkLed (mkState true false (of_Z 7) 1 None None)
                         255) 0))
      as (z & Htr & _ & _ & Hk); [simpl; lia|].
    exists z. split; [exact Htr|].
    apply (Hk 7); [reflexivity|simpl; unfold LOW; lia].
  - destruct (write_hands_integer_in_range
                (boot (mkLed (mkState true false (Fin (7 # 2)) 1 None None)
                         255) 0))
      as (z & Htr & _ & Hq & _); [simpl; lia|].
    exists z. split; [exact Htr|].
    destruct (Hq (7 # 2)) as [Hlo Hhi];
      [reflexivity|vm_compute; discriminate|vm_compute; discriminate|].
    simpl in Hlo, Hhi. unfold Qlt in Hlo, Hhi. simpl in Hlo, Hhi. lia.
Defined.

(** ** [brightness] and the provider *)

Lemma brightness_trace (v : number) (w : world) :
  trace (brightness v w) = IoWrite v :: trace w.
Proof. reflexivity. Qed.

(** C2: [brightness] hands its argument to the provider as it is, without
    going through [write]: no clamp, no inversion for a sink device, no
    conversion to an integer.  On a sink device with [HIGH = 255],
    [brightness(255)] sends 255 where [write] sends 0; on a source device
    [brightness(300)] sends 300 where [write] sends 255. *)
Theorem brightness_bypasses_write :
  (forall v w, trace (brightness v w) = IoWrite v :: trace w) /\
  (let w := boot (mkLed (mkState true false (Fin 0) 1 None None) 255) 0 in
   trace (brightness (of_Z 255) w) = [IoWrite (of_Z 255)] /\
   trace (write (set_value (of_Z 255) w)) = [IoWrite (of_Z 0)]) /\
  (let w := boot (mkLed initial_state 255) 0 in
   trace (brightness (of_Z 300) w) = [IoWrite (of_Z 300)] /\
   trace (write (set_value (of_Z 300) w)) = [IoWrite (of_Z 255)]).
Proof.
  split; [intros v w; apply brightness_trace|].
  split; split; reflexivity.
Qed.

(** ** Construction *)

Lemma constructor_fields gp io device l :
  Led_constructor gp io device = Normal l ->
  exists o r,
    device = Some o /\ HIGH l = high_of r /\
    isRunning (priv l) = false /\ interval (priv l) = None /\
    value (priv l) = Fin 0 /\ sink (priv l) = default false (opt_sink o).
Proof.
  unfold Led_constructor.
  destruct (normalizeParams io device) as [[ioOpts deviceOpts]|e] eqn:En;
    simpl; [|discriminate].
  destruct (gp ioOpts "builtin/digital"%string) as [p|e]; simpl;
    [|discriminate].
  destruct device as [o|]; simpl; [|discriminate].
  intros [= <-]. exists o, (resolution p).
  destruct (opt_sink o) as [[|]|]; simpl; repeat split; reflexivity.
Qed.

(** C4: with the second argument omitted the constructor never
    completes: it reads [device.sink] from the raw argument, which throws
    on [undefined].  [new Led(14)] is rejected with a [TypeError]. *)
Theorem constructor_rejects_omitted_device :
  (forall gp io, exists e, Led_constructor gp io None = Throw e) /\
  Led_constructor (fun _ _ => Normal (mkProvider None))
    (IoPin (PinNumber 14)) None = Throw TypeError.
Proof.
  split; [|reflexivity].
  intros gp io. unfold Led_constructor.
  destruct (normalizeParams io None) as [[ioOpts deviceOpts]|e]; simpl;
    [|eauto].
  destruct (gp ioOpts "builtin/digital"%string) as [p|e]; simpl; eauto.
Qed.

(** ** [blink] and its duration *)

(** C5, as stated, fails: [blink(0)] returns normally and leaves a timer
    of interval 0 registered. *)
Lemma blink_zero_duration_registers_timer :
  let w := boot (mkLed initial_state 1) 0 in
  degenerate (VNumber (of_Z 0)) /\
  invoke (Blink (VNumber (of_Z 0)) None) w <> Throw InvalidParameterError /\
  period <$> timers (blink (VNumber (of_Z 0)) None w) !! 1%nat
    = Some (VNumber (of_Z 0)).
Proof.
  split; [reflexivity|]. split; [discriminate|]. reflexivity.
Qed.

(** ** One tick of an animation *)



Lemma log_trace e w : trace (log e w) = e :: trace w.
Proof. reflexivity. Qed.

Lemma pulse_trace t cb w : trace (pulse t cb w) = trace w.
Proof.
  unfold pulse, animate.
  destruct t; destruct (interval (st w)); reflexivity.
Qed.

Lemma run_step_trace s d w :
  trace (run_step s d w) =
  IoWrite (written (HIGH (led w)) (sink (st w)) (value (st (run_step s d w))))
    :: StepCall d :: trace w.
Proof. destruct s; reflexivity. Qed.




(** ** The timer bookkeeping *)

Lemma coherent_timing w w' : timing w = timing w' -> coherent w -> coherent w'.
Proof.
  unfold timing, coherent. intros [= -> -> -> ->]. auto.
Qed.

Lemma write_timing w : timing (write w) = timing w.
Proof. reflexivity. Qed.
Lemma on_timing w : timing (on w) = timing w.
Proof. reflexivity. Qed.
Lemma off_timing w : timing (off w) = timing w.
Proof. reflexivity. Qed.
Lemma toggle_timing w : timing (toggle w) = timing w.
Proof. unfold toggle. destruct (isOn w); reflexivity. Qed.
Lemma brightness_timing v w : timing (brightness v w) = timing w.
Proof. reflexivity. Qed.
Lemma run_step_timing s d w : timing (run_step s d w) = timing w.
Proof. destruct s; reflexivity. Qed.
Lemma call_user_timing cb w : timing (call_user cb w) = timing w.
Proof. destruct cb; reflexivity. Qed.

Lemma stop_coherent w : coherent w -> coherent (stop w).
Proof.
  unfold coherent, stop. destruct (interval (st w)) as [h|]; simpl.
  - intros (_ & _ & e & ->). split; [reflexivity|]. apply delete_singleton_eq.
  - intros [_ ->]. auto.
Qed.

Lemma animate_coherent o w : coherent w -> coherent (animate o w).
Proof.
  unfold coherent, animate. destruct (interval (st w)) as [h|]; simpl.
  - intros (_ & _ & e & ->). split; [reflexivity|]. split; [lia|].
    eexists. rewrite delete_singleton_eq. apply insert_empty.
  - intros [_ ->]. split; [reflexivity|]. split; [lia|].
    eexists. apply insert_empty.
Qed.

Lemma blink_coherent d cb w : coherent w -> coherent (blink d cb w).
Proof.
  unfold coherent, blink, stop.
  destruct (interval (st w)) as [h|]; destruct d; simpl.
  all: try (intros (_ & _ & e & ->)); try (intros [_ ->]).
  all: split; [reflexivity|]; split; [lia|]; eexists;
    rewrite ?delete_singleton_eq; apply insert_empty.
Qed.

Lemma pulse_coherent t cb w : coherent w -> coherent (pulse t cb w).
Proof. unfold pulse. destruct t; apply animate_coherent. Qed.

Lemma fade_coherent v t cb w : coherent w -> coherent (fade v t cb w).
Proof. unfold fade. destruct t; apply animate_coherent. Qed.

Lemma call_coherent m w : coherent w -> coherent (call m w).
Proof.
  destruct m; simpl.
  - apply coherent_timing. symmetry. apply on_timing.
  - apply coherent_timing. symmetry. apply off_timing.
  - apply coherent_timing. symmetry. apply toggle_timing.
  - apply blink_coherent.
  - apply coherent_timing. symmetry. apply brightness_timing.
  - apply pulse_coherent.
  - apply fade_coherent.
  - unfold fadeIn. apply fade_coherent.
  - unfold fadeOut. apply fade_coherent.
  - apply stop_coherent.
Qed.

Lemma run_complete_coherent c w : coherent w -> coherent (run_complete c w).
Proof.
  intros H. destruct c as [time cb|cb]; unfold run_complete.
  - eapply coherent_timing; [symmetry; apply call_user_timing|].
    apply pulse_coherent. exact H.
  - eapply coherent_timing; [symmetry; apply call_user_timing|]. exact H.
Qed.

Lemma run_timer_coherent cb w : coherent w -> coherent (run_timer cb w).
Proof.
  intros H. destruct cb as [f|start opts]; simpl.
  - unfold blink_tick.
    eapply coherent_timing; [symmetry; apply call_user_timing|].
    eapply coherent_timing; [symmetry; apply toggle_timing|]. exact H.
  - unfold animate_tick.
    set (w' := run_step _ _ w).
    assert (Hw' : coherent w').
    { eapply coherent_timing; [symmetry; apply run_step_timing|]. exact H. }
    destruct (strict_eq _ _); [|exact Hw'].
    destruct (complete opts); [|exact Hw'].
    apply run_complete_coherent. exact Hw'.
Qed.

Lemma exec_coherent i w : coherent w -> coherent (exec i w).
Proof.
  intros H. destruct i as [m|ms|h]; simpl.
  - apply call_coherent. exact H.
  - exact H.
  - unfold fire. destruct (timers w !! h) as [e|]; [|exact H].
    apply run_timer_coherent. exact H.
Qed.

Lemma run_snoc ins i w : run (ins ++ [i]) w = exec i (run ins w).
Proof. unfold run. rewrite foldl_app. reflexivity. Qed.

Lemma run_coherent ins w : coherent w -> coherent (run ins w).
Proof.
  intros H. induction ins as [|i ins IH] using rev_ind; [exact H|].
  rewrite run_snoc. apply exec_coherent. exact IH.
Qed.

Lemma reachable_coherent w : reachable w -> coherent w.
Proof.
  intros (gp & io & device & l & t0 & ins & Hl & ->).
  apply run_coherent.
  destruct (constructor_fields _ _ _ _ Hl) as (o & r & _ & _ & Hr & Hi & _).
  unfold coherent, boot, st; simpl. rewrite Hi. auto.
Qed.

(** C5, amended: [blink] does not validate [duration].  With a duration
    that is not a positive number it returns normally, having cancelled
    the timer registered before (on a constructed device the new timer is
    the only one left), marked the device running and registered a
    repeating timer whose interval is that very duration; 100 is the
    interval when the duration is omitted or a function. *)
Theorem blink_accepts_degenerate_duration
    (d : jsval) (cb : option callback) (w : world) :
  degenerate d ->
  (exists w',
     invoke (Blink d cb) w = Normal w' /\
     isRunning (st w') = true /\
     interval (st w') = Some (next_handle w) /\
     timers w' !! next_handle w = Some (mkTimer (BlinkTick cb) d) /\
     (forall h, interval (st w) = Some h -> h <> next_handle w ->
        timers w' !! h = None) /\
     (reachable w ->
        timers w' = {[ next_handle w := mkTimer (BlinkTick cb) d ]})) /\
  (forall cb0 w0,
     timers (blink VUndefined cb0 w0) !! next_handle w0 =
     Some (mkTimer (BlinkTick cb0) (VNumber (of_Z 100)))) /\
  (forall g cb0 w0,
     timers (blink (VFunction g) cb0 w0) !! next_handle w0 =
     Some (mkTimer (BlinkTick (Some g)) (VNumber (of_Z 100)))).
Proof.
  intros Hd. split; [|split].
  - exists (blink d cb w). split; [reflexivity|].
    assert (Htimers : timers (blink d cb w) =
              <[ next_handle w := mkTimer (BlinkTick cb) d ]>
                (timers (stop w))).
    { destruct d as [|n|g|s]; simpl in Hd; try contradiction;
        unfold blink, stop; destruct (interval (st w)); reflexivity. }
    assert (Hstate : isRunning (st (blink d cb w)) = true /\
                     interval (st (blink d cb w)) = Some (next_handle w)).
    { destruct d as [|n|g|s]; simpl in Hd; try contradiction;
        unfold blink, stop; destruct (interval (st w)); split; reflexivity. }
    destruct Hstate as [Hrun Hi].
    split; [exact Hrun|]. split; [exact Hi|].
    rewrite Htimers. split; [apply lookup_insert_eq|]. split.
    + intros h Hh Hne. rewrite lookup_insert_ne by congruence.
      unfold stop. rewrite Hh. apply lookup_delete_eq.
    + intros Hr.
      pose proof (stop_coherent w (reachable_coherent w Hr)) as Hc.
      unfold coherent in Hc.
      replace (interval (st (stop w))) with (@None handle) in Hc
        by (unfold stop; destruct (interval (st w)); reflexivity).
      destruct Hc as [_ ->]. apply insert_empty.
  - intros cb0 w0. unfold blink, stop.
    destruct (interval (st w0)); apply lookup_insert_eq.
  - intros g cb0 w0. unfold blink, stop.
    destruct (interval (st w0)); apply lookup_insert_eq.
Qed.

(** A device that is already blinking (handle 1) is told to blink with
    the duration -5: handle 1 is gone and handle 2, of interval -5, is
    the only timer. *)
Lemma blink_accepts_degenerate_duration_witness :
  let w := run [Call (Blink VUndefined None)]
             (boot (mkLed initial_state 1) 0) in
  exists w',
    invoke (Blink (VNumber (of_Z (-5))) None) w = Normal w' /\
    isRunning (st w') = true /\
    interval (st w') = Some 2%nat /\
    timers w' !! 1%nat = None /\
    timers w' = {[ 2%nat := mkTimer (BlinkTick None) (VNumber (of_Z (-5))) ]}.
Proof.
  intros w.
  destruct (blink_accepts_degenerate_duration
              (VNumber (of_Z (-5))) None w)
    as ((w' & Hinv & Hrun & Hi & _ & Hgone & Honly) & _); [reflexivity|].
  exists w'. split; [exact Hinv|]. split; [exact Hrun|].
  split; [exact Hi|]. split.
  - apply (Hgone 1%nat); [reflexivity|discriminate].
  - apply Honly.
    exists (fun _ _ => Normal (mkProvider None)), (IoPin (PinNumber 14)),
      (Some (mkDevice None None)), (mkLed initial_state 1), 0,
      [Call (Blink VUndefined None)].
    split; reflexivity.
Defined.

(** C9: on a device that is not running, [stop] returns normally and
    leaves the whole world as it was: [value], [direction], [sink],
    [mode], the timer handle and [isRunning] included. *)
Theorem stop_when_idle (w : world) :
  reachable w -> isRunning (st w) = false ->
  stop w = w /\ invoke Stop w = Normal w.
Proof.
  intros Hr Hrun. pose proof (reachable_coherent w Hr) as Hc.
  assert (Hs : stop w = w).
  { unfold coherent in Hc. unfold stop.
    destruct w as [[[snk run v dir md iv] hi] tm nh t tr].
    unfold st in *; simpl in *. subst run.
    destruct iv as [h|]; [destruct Hc as [? _]; discriminate|].
    reflexivity. }
  split; [exact Hs|]. unfold invoke. simpl. rewrite Hs. reflexivity.
Qed.

Lemma silent_trans h w1 w2 w3 : silent h w1 w2 -> silent h w2 w3 -> silent h w1 w3.
Proof. intros [_ E1] [R E2]. split; [exact R|congruence]. Qed.

Lemma silent_refl h w : retired h w -> silent h w w.
Proof. intros R. split; [exact R|reflexivity]. Qed.

Lemma toggle_silent h w : retired h w -> silent h w (toggle w).
Proof.
  intros R. unfold toggle. destruct (isOn w); (split; [exact R|reflexivity]).
Qed.

Lemma call_user_silent h cb w : retired h w -> silent h w (call_user cb w).
Proof. intros R. destruct cb; (split; [exact R|reflexivity]). Qed.

Lemma run_step_silent h s d w : retired h w -> silent h w (run_step s d w).
Proof. intros R. destruct s; (split; [exact R|reflexivity]). Qed.

Lemma stop_silent h w : retired h w -> silent h w (stop w).
Proof.
  intros [Hn Hlt]. unfold stop. destruct (interval (st w)) as [h'|];
    (split; [split; [simpl|exact Hlt]|reflexivity]).
  - rewrite lookup_delete. case_decide; auto.
  - exact Hn.
Qed.

Lemma animate_silent h o w : retired h w -> silent h w (animate o w).
Proof.
  intros [Hn Hlt]. unfold animate. destruct (interval (st w)) as [h'|];
    (split; [split; simpl; [|lia]|reflexivity]).
  - rewrite lookup_insert_ne by lia. rewrite lookup_delete. case_decide; auto.
  - rewrite lookup_insert_ne by lia. exact Hn.
Qed.

Lemma blink_silent h d cb w : retired h w -> silent h w (blink d cb w).
Proof.
  intros [Hn Hlt]. unfold blink, stop.
  destruct (interval (st w)) as [h'|]; destruct d;
    (split; [split; simpl; [|lia]|reflexivity]).
  all: rewrite lookup_insert_ne by lia; rewrite ?lookup_delete;
    try case_decide; auto.
Qed.

Lemma pulse_silent h t cb w : retired h w -> silent h w (pulse t cb w).
Proof. unfold pulse. destruct t; apply animate_silent. Qed.

Lemma fade_silent h v t cb w : retired h w -> silent h w (fade v t cb w).
Proof. unfold fade. destruct t; apply animate_silent. Qed.

Lemma call_silent h m w : retired h w -> silent h w (call m w).
Proof.
  intros R. destruct m; simpl.
  - split; [exact R|reflexivity].
  - split; [exact R|reflexivity].
  - apply toggle_silent, R.
  - apply blink_silent, R.
  - split; [exact R|reflexivity].
  - apply pulse_silent, R.
  - apply fade_silent, R.
  - apply fade_silent, R.
  - apply fade_silent, R.
  - apply stop_silent, R.
Qed.

Lemma run_complete_silent h c w : retired h w -> silent h w (run_complete c w).
Proof.
  intros R. destruct c as [time cb|cb]; unfold run_complete.
  - assert (S1 : silent h w (pulse (TNumber time) cb (log CompleteCall w))).
    { apply (silent_trans _ _ (log CompleteCall w)).
      - split; [exact R|reflexivity].
      - apply pulse_silent. exact R. }
    eapply silent_trans; [exact S1|]. apply call_user_silent, S1.
  - apply (silent_trans _ _ (log CompleteCall w)).
    + split; [exact R|reflexivity].
    + apply call_user_silent. exact R.
Qed.

Lemma run_timer_silent h cb w : retired h w -> silent h w (run_timer cb w).
Proof.
  intros R. destruct cb as [f|start opts]; simpl.
  - unfold blink_tick.
    pose proof (toggle_silent h w R) as S1.
    eapply silent_trans; [exact S1|]. apply call_user_silent, S1.
  - unfold animate_tick.
    set (w' := run_step _ _ w).
    assert (S1 : silent h w w') by (apply run_step_silent, R).
    destruct (strict_eq _ _); [|exact S1].
    destruct (complete opts); [|exact S1].
    eapply silent_trans; [exact S1|]. apply run_complete_silent, S1.
Qed.

Lemma exec_silent h i w : retired h w -> silent h w (exec i w).
Proof.
  intros R. destruct i as [m|ms|h']; simpl.
  - apply call_silent, R.
  - split; [exact R|reflexivity].
  - unfold fire. destruct (timers w !! h') as [e|] eqn:E;
      [|apply silent_refl, R].
    assert (Hne : h <> h') by (intros ->; destruct R; congruence).
    assert (S1 : silent h w (log (Tick h') w)).
    { split; [exact R|]. simpl.
      destruct (Nat.eqb_spec h h'); [contradiction|reflexivity]. }
    eapply silent_trans; [exact S1|]. apply run_timer_silent, S1.
Qed.

Lemma run_silent h ins w : retired h w -> silent h w (run ins w).
Proof.
  intros R. induction ins as [|i ins IH] using rev_ind;
    [apply silent_refl, R|].
  rewrite run_snoc. eapply silent_trans; [exact IH|].
  apply exec_silent, IH.
Qed.

Lemma coherent_size w : coherent w -> (size (timers w) <= 1)%nat.
Proof.
  unfold coherent. destruct (interval (st w)) as [h|].
  - intros (_ & _ & e & ->). rewrite map_size_singleton. lia.
  - intros [_ ->]. rewrite map_size_empty. lia.
Qed.

Lemma coherent_registered w h :
  coherent w -> (is_Some (timers w !! h) <-> interval (st w) = Some h).
Proof.
  unfold coherent. destruct (interval (st w)) as [h'|].
  - intros (_ & _ & e & ->). split.
    + intros [x Hx]. apply lookup_singleton_Some in Hx as [-> _]. reflexivity.
    + intros [= ->]. rewrite lookup_singleton_eq. eauto.
  - intros [_ ->]. rewrite lookup_empty. split; [intros [? ?]|]; discriminate.
Qed.

Lemma start_retires m h w :
  coherent w -> starts_animation m = true -> is_Some (timers w !! h) ->
  retired h (call m w) /\ ticks_of h (trace (call m w)) = ticks_of h (trace w).
Proof.
  intros Hc Hm Hh. apply (coherent_registered w h Hc) in Hh.
  unfold coherent in Hc. rewrite Hh in Hc. destruct Hc as (_ & Hlt & e & Ht).
  assert (Ha : forall o, retired h (animate o w) /\
             ticks_of h (trace (animate o w)) = ticks_of h (trace w)).
  { intros o. unfold animate, retired. rewrite Hh. simpl.
    split; [split; [|lia]|reflexivity].
    rewrite lookup_insert_ne by lia. apply lookup_delete_eq. }
  destruct m as [| | |d cb|v|time cb|v time cb|time cb|time cb|];
    try discriminate; simpl.
  - unfold blink, stop, retired. rewrite Hh.
    destruct d; simpl; (split; [split; [|lia]|reflexivity]);
      rewrite lookup_insert_ne by lia; apply lookup_delete_eq.
  - unfold pulse. destruct time; apply Ha.
  - unfold fade. destruct time; apply Ha.
  - unfold fadeIn, fade. destruct time; apply Ha.
  - unfold fadeOut, fade. destruct time; apply Ha.
Qed.

(** C6: a device has at most one registered timer, the one named by
    [#state.interval]; starting an animation ([blink], [pulse], [fade],
    [fadeIn], [fadeOut]) cancels the timer registered before, and whatever
    happens afterwards that timer stays cancelled and never ticks
    again. *)
Theorem at_most_one_timer (w : world) :
  reachable w ->
  (size (timers w) <= 1)%nat /\
  (forall h, is_Some (timers w !! h) <-> interval (st w) = Some h) /\
  forall m h,
    starts_animation m = true -> is_Some (timers w !! h) ->
    timers (call m w) !! h = None /\
    forall ins,
      timers (run ins (call m w)) !! h = None /\
      ticks_of h (trace (run ins (call m w))) = ticks_of h (trace w).
Proof.
  intros Hr. pose proof (reachable_coherent w Hr) as Hc.
  split; [apply coherent_size, Hc|].
  split; [intros h; apply coherent_registered, Hc|].
  intros m h Hm Hh.
  destruct (start_retires m h w Hc Hm Hh) as [R E].
  split; [apply R|]. intros ins.
  destruct (run_silent h ins _ R) as [[Hn _] E'].
  split; [exact Hn|congruence].
Qed.

Lemma blinking_reachable :
  reachable (run [Call (Blink VUndefined None)]
               (boot (mkLed initial_state 1) 0)).
Proof.
  exists (fun _ _ => Normal (mkProvider None)), (IoPin (PinNumber 14)),
    (Some (mkDevice None None)), (mkLed initial_state 1), 0,
    [Call (Blink VUndefined None)].
  split; reflexivity.
Qed.

Lemma idle_reachable : reachable (boot (mkLed initial_state 1) 0).
Proof.
  exists (fun _ _ => Normal (mkProvider None)), (IoPin (PinNumber 14)),
    (Some (mkDevice None None)), (mkLed initial_state 1), 0, [].
  split; reflexivity.
Qed.

Lemma stop_when_idle_witness :
  stop (boot (mkLed initial_state 1) 0) = boot (mkLed initial_state 1) 0 /\
  invoke Stop (boot (mkLed initial_state 1) 0)
    = Normal (boot (mkLed initial_state 1) 0).
Proof.
  apply (stop_when_idle (boot (mkLed initial_state 1) 0)).
  - exact idle_reachable.
  - reflexivity.
Defined.

(** A blinking device on which a fade is started: the blink timer, handle
    1, is gone and does not tick when the facility is asked to run it. *)
Lemma at_most_one_timer_witness :
  let w := run [Call (Blink VUndefined None)]
             (boot (mkLed initial_state 1) 0) in
  let m := Fade (of_Z 1) (TNumber (of_Z 100)) None in
  (size (timers w) <= 1)%nat /\
  timers (call m w) !! 1%nat = None /\
  ticks_of 1%nat (trace (run [Elapse 100; Fire 1%nat] (call m w)))
    = ticks_of 1%nat (trace w).
Proof.
  intros w m.
  destruct (at_most_one_timer w blinking_reachable) as (Hsize & _ & Hstart).
  destruct (Hstart m 1%nat) as [Hgone Hafter].
  - reflexivity.
  - eexists. reflexivity.
  - split; [exact Hsize|]. split; [exact Hgone|].
    apply (Hafter [Elapse 100; Fire 1%nat]).
Defined.

(** ** A fade that has completed *)

Lemma completed_fade_stays_registered
    (w : world) (h : handle) (start : Z) (opts : animation) (ms : jsval)
    (cb : option callback) :
  timers w !! h = Some (mkTimer (AnimateTick start opts) ms) ->
  complete opts = Some (FadeComplete cb) ->
  strict_eq (progress_of (now w - start) (duration opts)) (of_Z 1) = true ->
  timing (fire h w) = timing w /\
  complete_calls (trace (fire h w)) = S (complete_calls (trace w)).
Proof.
  intros Hh Hc Hp. unfold fire. rewrite Hh. simpl. unfold animate_tick.
  simpl. rewrite Hp, Hc.
  destruct (step opts); destruct cb; split; reflexivity.
Qed.

(** C1: [animate] never cancels its own timer, and the [complete] of
    [fade] does not either.  After [fade(HIGH, 100)] on a fresh device,
    with the timer running every 10 ms for 120 ms, [step] has been
    invoked 12 times and [complete] and the user callback 3 times (at
    100, 110 and 120 ms), and the timer is still registered with
    [isRunning] true. *)
Theorem fade_keeps_completing :
  let w := run (Call (Fade (of_Z 1) (TNumber (of_Z 100)) (Some 7%nat))
                  :: ticks_every 12 10 1%nat)
             (boot (mkLed initial_state 1) 0) in
  step_calls (trace w) = 12%nat /\
  complete_calls (trace w) = 3%nat /\
  user_calls 7%nat (trace w) = 3%nat /\
  isRunning (st w) = true /\
  interval (st w) = Some 1%nat /\
  is_Some (timers w !! 1%nat).
Proof.
  vm_compute. repeat split; try reflexivity. eexists. reflexivity.
Qed.

(** ** The range of the stored value *)

Lemma between_of_Z lo hi z : lo <= z <= hi -> between lo hi (of_Z z).
Proof. intros H. simpl. rewrite <- !Zle_Qle. lia. Qed.

Lemma pwm_range_bounds h : pwm_range h -> 0 <= h < 2 ^ 31.
Proof.
  intros (k & Hk & ->).
  assert (2 ^ 0 <= 2 ^ k) by (apply Z.pow_le_mono_r; lia).
  assert (2 ^ k <= 2 ^ 30) by (apply Z.pow_le_mono_r; lia).
  change (2 ^ 0) with 1 in *. lia.
Qed.

Lemma high_of_range r : 0 <= high_of r -> pwm_range (high_of r).
Proof.
  unfold high_of. destruct r as [r|]; [|intros _; exists 1; split; [lia|reflexivity]].
  destruct (Z.eqb r 0); [intros _; exists 1; split; [lia|reflexivity]|].
  unfold shl1. assert (Hk : 0 <= r mod 32 < 32) by (apply Z.mod_pos_bound; lia).
  set (k := r mod 32) in *. rewrite Z.shiftl_1_l.
  destruct (Z.eq_dec k 31) as [->|Hne].
  - vm_compute. intros H. exfalso. apply H. reflexivity.
  - intros _. exists k. split; [lia|].
    assert (2 ^ 0 <= 2 ^ k) by (apply Z.pow_le_mono_r; lia).
    assert (2 ^ k <= 2 ^ 30) by (apply Z.pow_le_mono_r; lia).
    change (2 ^ 0) with 1 in *.
    rewrite wrap32_small; lia.
Qed.

Lemma testbit_above t k n : 0 <= t < 2 ^ k -> k <= n -> Z.testbit t n = false.
Proof.
  intros [H0 Hk] Hn. destruct (Z.eq_dec t 0) as [->|Hne]; [apply Z.bits_0|].
  apply Z.bits_above_log2; [lia|].
  assert (Z.log2 t < k); [|lia].
  apply Z.log2_lt_pow2; lia.
Qed.

Lemma lxor_ones t k : 0 <= k -> 0 <= t < 2 ^ k -> Z.lxor t (2 ^ k - 1) = 2 ^ k - 1 - t.
Proof.
  intros Hk Ht.
  replace (2 ^ k - 1) with (Z.ones k) by (rewrite Z.ones_equiv; lia).
  assert (Hland : Z.land t (Z.lxor t (Z.ones k)) = 0).
  { apply Z.bits_inj'. intros n Hn.
    rewrite Z.land_spec, Z.lxor_spec, Z.bits_0.
    destruct (Z.lt_ge_cases n k).
    - rewrite Z.ones_spec_low by lia. destruct (Z.testbit t n); reflexivity.
    - rewrite (testbit_above t k n) by lia. reflexivity. }
  apply Z.add_nocarry_lxor in Hland.
  rewrite <- Z.lxor_assoc, Z.lxor_nilpotent, Z.lxor_0_l in Hland. lia.
Qed.

Lemma progress_unit start t d :
  start <= t -> truthy d = true -> lt d (of_Z 0) = false ->
  exists p, progress_of (t - start) d = Fin p /\ (0 <= p)%Q /\ (p <= 1)%Q.
Proof.
  intros Hs Ht Hn. unfold progress_of.
  assert (Hl : (0 <= inject_Z (t - start))%Q)
    by (change 0%Q with (inject_Z 0); rewrite <- Zle_Qle; lia).
  destruct d as [q| | |]; simpl in *; try discriminate.
  - apply negb_true_iff in Ht. rewrite Ht.
    apply Qlt_bool_false in Hn. change (inject_Z 0) with 0%Q in Hn.
    assert (Hq : (0 < q)%Q).
    { apply Qle_lteq in Hn as [Hlt|Heq]; [exact Hlt|].
      apply Qeq_bool_neq in Ht. exfalso. apply Ht. symmetry. exact Heq. }
    assert (Hp : (0 <= inject_Z (t - start) / q)%Q).
    { apply Qle_shift_div_l; [exact Hq|]. lra. }
    unfold gt; simpl.
    destruct (Qlt_bool (inject_Z 1) (inject_Z (t - start) / q)) eqn:E.
    + exists (inject_Z 1). split; [reflexivity|]. split; [easy|apply Qle_refl].
    + apply Qlt_bool_false in E. eexists. split; [reflexivity|].
      split; [exact Hp|exact E].
  - exists 0%Q. split; [reflexivity|]. split; [apply Qle_refl|easy].
Qed.

Lemma scale_between h u p :
  between 0 h u -> (0 <= p)%Q -> (p <= 1)%Q -> between 0 h (mul u (Fin p)).
Proof.
  destruct u as [q| | |]; simpl; try tauto.
  change (inject_Z 0) with 0%Q. intros [H0 Hh] Hp0 Hp1. split; nra.
Qed.

Lemma bitxor_between h v :
  pwm_range h -> between 0 h v -> between 0 h (bitxor v (of_Z h)).
Proof.
  intros Hr Hv. pose proof (pwm_range_bounds h Hr) as Hb.
  destruct (to_int32_between v h (proj2 Hb) Hv) as [Ht _].
  unfold bitxor. apply between_of_Z.
  replace (to_int32 (of_Z h)) with h
    by (unfold to_int32, of_Z; rewrite trunc_inject_Z, wrap32_small; lia).
  destruct Hr as (k & Hk & ->).
  rewrite lxor_ones; lia.
Qed.

Lemma blend_between h a b p :
  between 0 h a -> between 0 h (add a b) -> (0 <= p)%Q -> (p <= 1)%Q ->
  between 0 h (add a (mul b (Fin p))).
Proof.
  destruct a as [x| | |]; simpl; try tauto.
  destruct b as [y| | |]; simpl; try tauto.
  change (inject_Z 0) with 0%Q. intros [Hx0 Hxh] [Hy0 Hyh] Hp0 Hp1.
  split; nra.
Qed.

Lemma sound_frame w w' :
  HIGH (led w') = HIGH (led w) -> timers w' = timers w -> now w' = now w ->
  between LOW (HIGH (led w)) (value (st w')) -> sound w -> sound w'.
Proof.
  unfold sound. intros -> -> -> Hv (Hr & _ & Ht). auto.
Qed.

Lemma run_step_sound s p w :
  sound w -> step_ok (HIGH (led w)) s -> (0 <= p)%Q -> (p <= 1)%Q ->
  sound (run_step s (Fin p) w).
Proof.
  intros Hs Hok Hp0 Hp1. apply (sound_frame w); try (destruct s; reflexivity);
    [|exact Hs].
  destruct Hs as (Hr & _ & _).
  destruct s as [u dir|a b]; simpl in *.
  - pose proof (scale_between _ u p Hok Hp0 Hp1) as Hm.
    destruct (dir =? -1); [apply bitxor_between; assumption|exact Hm].
  - destruct Hok as [Ha Hb]. apply blend_between; assumption.
Qed.

Lemma animate_sound o w :
  sound w -> step_ok (HIGH (led w)) (step o) -> complete_ok (complete o) ->
  lt (duration o) (of_Z 0) = false -> delta o = None ->
  sound (animate o w).
Proof.
  intros (Hr & Hv & Ht) Hstep Hcomp Hneg Hdelta.
  assert (Hnew : timer_ok (HIGH (led w)) (now w)
    (mkTimer
       (AnimateTick (now w)
          {| duration :=
               if truthy (duration o) then duration o else of_Z 1000;
             delta := Some (fun val => val);
             complete := complete o; step := step o; delay := delay o |})
       (VNumber match delay o with
                | Some d => if truthy d then d else of_Z 10
                | None => of_Z 10
                end))).
  { unfold timer_ok; simpl. split; [lia|].
    destruct (truthy (duration o)) eqn:E; auto 10. }
  unfold animate. rewrite Hdelta.
  destruct (interval (st w)) as [h'|]; unfold sound; simpl;
    (split; [exact Hr|]); (split; [exact Hv|]);
    apply map_Forall_insert_2; try exact Hnew; try exact Ht.
  apply map_Forall_delete. exact Ht.
Qed.

Lemma stop_sound w : sound w -> sound (stop w).
Proof.
  intros (Hr & Hv & Ht). unfold stop.
  destruct (interval (st w)) as [h'|]; unfold sound; simpl;
    (split; [exact Hr|]); (split; [exact Hv|]); [|exact Ht].
  apply map_Forall_delete. exact Ht.
Qed.

Lemma blink_sound d cb w : sound w -> sound (blink d cb w).
Proof.
  intros (Hr & Hv & Ht). unfold blink, stop.
  destruct (interval (st w)) as [h'|]; destruct d; unfold sound; simpl;
    (split; [exact Hr|]); (split; [exact Hv|]);
    apply map_Forall_insert_2; try exact I; try exact Ht;
    apply map_Forall_delete; exact Ht.
Qed.

Lemma on_sound w : sound w -> sound (on w).
Proof.
  intros Hs. apply (sound_frame w); try reflexivity; [|exact Hs].
  destruct Hs as (Hr & _). apply pwm_range_bounds in Hr.
  apply between_of_Z. unfold LOW. lia.
Qed.

Lemma off_sound w : sound w -> sound (off w).
Proof.
  intros Hs. apply (sound_frame w); try reflexivity; [|exact Hs].
  destruct Hs as (Hr & _). apply pwm_range_bounds in Hr.
  apply between_of_Z. unfold LOW. lia.
Qed.

Lemma toggle_sound w : sound w -> sound (toggle w).
Proof. unfold toggle. destruct (isOn w); [apply off_sound|apply on_sound]. Qed.

Lemma brightness_sound v w :
  between LOW (HIGH (led w)) v -> sound w -> sound (brightness v w).
Proof. intros Hv Hs. apply (sound_frame w); try reflexivity; assumption. Qed.

Lemma call_user_sound cb w : sound w -> sound (call_user cb w).
Proof. destruct cb; auto. Qed.

Lemma le_of_Qle a b : (a <= b)%Q -> le (Fin a) (Fin b) = true.
Proof.
  intros H. unfold le; simpl. destruct (Qlt_bool a b) eqn:E; [reflexivity|].
  apply Qlt_bool_false in E. simpl. apply Qeq_bool_iff.
  apply Qle_antisym; assumption.
Qed.

Lemma fade_sound val t cb w :
  sound w -> between LOW (HIGH (led w)) val -> valid_time t ->
  sound (fade val t cb w).
Proof.
  intros Hs Hval Ht. pose proof Hs as (Hr & Hv & _).
  apply pwm_range_bounds in Hr.
  assert (Hstep : step_ok (HIGH (led w))
            (FadeStep (if truthy (value (st w)) then value (st w) else of_Z 0)
               (sub val (value (st w))))).
  { unfold LOW in *. destruct (value (st w)) as [vq| | |]; try contradiction.
    destruct val as [x| | |]; try contradiction.
    simpl in Hv, Hval. change (inject_Z 0) with 0%Q in *.
    destruct Hv as [Hv0 Hvh]. destruct Hval as [Hx0 Hxh].
    unfold truthy. destruct (Qeq_bool vq 0) eqn:E; simpl.
    - apply Qeq_bool_iff in E. change (inject_Z 0) with 0%Q.
      repeat split; lra.
    - change (inject_Z 0) with 0%Q. repeat split; lra. }
  unfold fade.
  destruct t as [|n|f]; apply animate_sound; try assumption; reflexivity.
Qed.

Lemma pulse_sound t cb w : sound w -> valid_time t -> sound (pulse t cb w).
Proof.
  intros Hs Ht. pose proof Hs as (Hr & Hv & _).
  apply pwm_range_bounds in Hr.
  set (target :=
    if negb (strict_eq (value (st w)) (of_Z 0))
    then (if strict_eq (value (st w)) (of_Z (HIGH (led w)))
          then of_Z 0 else of_Z (HIGH (led w)))
    else of_Z (HIGH (led w))).
  assert (Hstep : forall dir, step_ok (HIGH (led w))
            (PulseStep (if le (value (st w)) target then target
                        else sub (value (st w)) target) dir)).
  { intros dir. unfold LOW in *. simpl.
    assert (Htarget : target = of_Z 0 \/ target = of_Z (HIGH (led w))).
    { unfold target. destruct (negb _); [destruct (strict_eq _ _)|]; auto. }
    destruct (value (st w)) as [vq| | |]; try contradiction.
    simpl in Hv. change (inject_Z 0) with 0%Q in *. destruct Hv as [Hv0 Hvh].
    destruct Htarget as [-> | ->].
    - destruct (le (Fin vq) (of_Z 0)); simpl; change (inject_Z 0) with 0%Q.
      + split; [lra|]. change 0%Q with (inject_Z 0). rewrite <- Zle_Qle. lia.
      + split; lra.
    - unfold of_Z at 1. rewrite (le_of_Qle _ _ Hvh). simpl.
      split; [|lra]. change 0%Q with (inject_Z 0). rewrite <- Zle_Qle. lia. }
  unfold pulse. fold target.
  destruct t as [|n|f]; apply animate_sound; try assumption;
    try reflexivity; apply Hstep.
Qed.

Create HintDb led_sound.
#[local] Hint Resolve on_sound off_sound toggle_sound blink_sound stop_sound
  brightness_sound pulse_sound fade_sound : led_sound.

Lemma call_sound m w :
  sound w -> valid_method (HIGH (led w)) m -> sound (call m w).
Proof.
  intros Hs Hm. pose proof Hs as (Hr & _). apply pwm_range_bounds in Hr.
  destruct m as [| | |d cb|v|t cb|v t cb|t cb|t cb|]; simpl in *;
    auto with led_sound.
  - destruct Hm. auto with led_sound.
  - unfold fadeIn.
    apply fade_sound; [exact Hs| |destruct t; try exact Hm; reflexivity].
    apply between_of_Z. unfold LOW. lia.
  - unfold fadeOut.
    apply fade_sound; [exact Hs| |destruct t; try exact Hm; reflexivity].
    apply between_of_Z. unfold LOW. lia.
Qed.

Lemma animate_HIGH o w : HIGH (led (animate o w)) = HIGH (led w).
Proof. unfold animate. destruct (interval (st w)); reflexivity. Qed.

Lemma pulse_HIGH t cb w : HIGH (led (pulse t cb w)) = HIGH (led w).
Proof. unfold pulse. destruct t; apply animate_HIGH. Qed.

Lemma fade_HIGH v t cb w : HIGH (led (fade v t cb w)) = HIGH (led w).
Proof. unfold fade. destruct t; apply animate_HIGH. Qed.

Lemma call_HIGH m w : HIGH (led (call m w)) = HIGH (led w).
Proof.
  destruct m as [| | |d cb|v|t cb|v t cb|t cb|t cb|]; simpl;
    try reflexivity.
  - unfold toggle. destruct (isOn w); reflexivity.
  - unfold blink, stop. destruct (interval (st w)); destruct d; reflexivity.
  - apply pulse_HIGH.
  - apply fade_HIGH.
  - apply fade_HIGH.
  - apply fade_HIGH.
  - unfold stop. destruct (interval (st w)); reflexivity.
Qed.

Lemma run_step_HIGH s d w : HIGH (led (run_step s d w)) = HIGH (led w).
Proof. destruct s; reflexivity. Qed.

Lemma log_HIGH e w : HIGH (led (log e w)) = HIGH (led w).
Proof. reflexivity. Qed.

Lemma run_complete_HIGH c w : HIGH (led (run_complete c w)) = HIGH (led w).
Proof.
  destruct c as [time [f|]|[f|]]; unfold run_complete, call_user;
    rewrite ?log_HIGH, ?pulse_HIGH, ?log_HIGH; reflexivity.
Qed.

Lemma fire_HIGH h w : HIGH (led (fire h w)) = HIGH (led w).
Proof.
  unfold fire. destruct (timers w !! h) as [[cb ms]|]; [|reflexivity].
  destruct cb as [f|start opts]; simpl.
  - unfold blink_tick, toggle.
    destruct f; destruct (isOn _); reflexivity.
  - unfold animate_tick.
    destruct (strict_eq _ _); [destruct (complete opts)|];
      rewrite ?run_complete_HIGH, run_step_HIGH; reflexivity.
Qed.

Lemma exec_HIGH i w : HIGH (led (exec i w)) = HIGH (led w).
Proof.
  destruct i; simpl; [apply call_HIGH|reflexivity|apply fire_HIGH].
Qed.

Lemma run_HIGH ins w : HIGH (led (run ins w)) = HIGH (led w).
Proof.
  induction ins as [|i ins IH] using rev_ind; [reflexivity|].
  rewrite run_snoc, exec_HIGH. exact IH.
Qed.

Lemma run_complete_sound c w :
  sound w -> complete_ok (Some c) -> sound (run_complete c w).
Proof.
  intros Hs Hc. destruct c as [time cb|cb]; unfold run_complete;
    apply call_user_sound; [|exact Hs].
  apply pulse_sound; [exact Hs|exact Hc].
Qed.

Lemma run_timer_sound e w :
  sound w -> timer_ok (HIGH (led w)) (now w) e ->
  sound (run_timer (on_tick e) w).
Proof.
  intros Hs He. unfold timer_ok in He.
  destruct (on_tick e) as [f|start opts]; simpl.
  - unfold blink_tick. apply call_user_sound, toggle_sound, Hs.
  - destruct He as (Hstart & Htruthy & Hneg & Hdelta & Hstep & Hcomp).
    unfold animate_tick.
    destruct (progress_unit start (now w) (duration opts) Hstart Htruthy Hneg)
      as (p & Hp & Hp0 & Hp1).
    rewrite Hp, Hdelta.
    pose proof (run_step_sound (step opts) p w Hs Hstep Hp0 Hp1) as Hs'.
    destruct (strict_eq (Fin p) (of_Z 1)); [|exact Hs'].
    destruct (complete opts) as [c|]; [|exact Hs'].
    apply run_complete_sound; assumption.
Qed.

Lemma fire_sound h w : sound w -> sound (fire h w).
Proof.
  intros Hs. unfold fire. destruct (timers w !! h) as [e|] eqn:E; [|exact Hs].
  apply run_timer_sound; [exact Hs|].
  destruct Hs as (_ & _ & Ht). exact (map_Forall_lookup_1 _ _ _ _ Ht E).
Qed.

Lemma elapse_sound ms w : sound w -> sound (elapse ms w).
Proof.
  intros (Hr & Hv & Ht). unfold sound; simpl.
  split; [exact Hr|]. split; [exact Hv|].
  eapply map_Forall_impl; [exact Ht|].
  intros h e. unfold timer_ok. destruct (on_tick e); [auto|].
  intros (Hstart & Hrest). split; [lia|exact Hrest].
Qed.

Lemma exec_sound i w :
  sound w -> valid_input (HIGH (led w)) i -> sound (exec i w).
Proof.
  intros Hs Hi. destruct i as [m|ms|h]; simpl.
  - apply call_sound; assumption.
  - apply elapse_sound, Hs.
  - apply fire_sound, Hs.
Qed.

Lemma run_sound ins w :
  sound w -> Forall (valid_input (HIGH (led w))) ins -> sound (run ins w).
Proof.
  intros Hs. induction ins as [|i ins IH] using rev_ind; [auto|].
  intros Hall. apply Forall_app in Hall as [Hins Hi].
  apply Forall_inv in Hi.
  rewrite run_snoc. apply exec_sound; [auto|].
  rewrite run_HIGH. exact Hi.
Qed.

(** C3, amended: on a constructed device whose range is not empty, as long
    as the calls keep to the documented ranges (brightness values and
    fade targets within [[LOW, HIGH]], animation times not negative), the
    stored value stays within [[LOW, HIGH]] whatever is called and
    whenever the timer runs.  [write] itself clamps only what it hands to
    the provider, never the stored value. *)
Theorem stored_value_in_range gp io device l t0 ins :
  Led_constructor gp io device = Normal l ->
  0 <= HIGH l ->
  Forall (valid_input (HIGH l)) ins ->
  between LOW (HIGH l) (value (st (run ins (boot l t0)))).
Proof.
  intros Hl Hh Hins.
  destruct (constructor_fields _ _ _ _ Hl) as (o & r & _ & Hr & _ & _ & Hv & _).
  assert (Hs : sound (boot l t0)).
  { unfold sound, boot, st; simpl. rewrite Hv.
    split; [rewrite Hr in *; apply high_of_range; exact Hh|].
    split; [apply (between_of_Z LOW (HIGH l) 0); unfold LOW; lia|].
    apply map_Forall_empty. }
  destruct (run_sound ins (boot l t0) Hs Hins) as (_ & Hb & _).
  rewrite run_HIGH in Hb. exact Hb.
Qed.

Lemma stored_value_in_range_witness :
  between LOW 1
    (value (st (run [Call (Fade (of_Z 1) (TNumber (of_Z 100)) None);
                     Elapse 50; Fire 1%nat]
                  (boot (mkLed initial_state 1) 0)))).
Proof.
  apply (stored_value_in_range (fun _ _ => Normal (mkProvider None))
           (IoPin (PinNumber 14)) (Some (mkDevice None None))
           (mkLed initial_state 1) 0).
  - reflexivity.
  - simpl. lia.
  - repeat constructor; simpl; vm_compute; discriminate.
Defined.

(** C3, as stated, fails: [fade(2, 100)] on a device with [HIGH = 1],
    once the fade has run to its end, leaves 2 in the stored state
    although [write] has run (and handed 1 to the provider). *)
Lemma fade_beyond_range_is_stored :
  let w := run [Call (Fade (of_Z 2) (TNumber (of_Z 100)) None);
                Elapse 100; Fire 1%nat]
             (boot (mkLed initial_state 1) 0) in
  reachable w /\
  (exists d, trace w =
     [CompleteCall; IoWrite (of_Z 1); StepCall d; Tick 1%nat]) /\
  strict_eq (value (st w)) (of_Z 2) = true /\
  ~ between LOW (HIGH (led w)) (value (st w)).
Proof.
  intros w. split.
  { exists (fun _ _ => Normal (mkProvider None)), (IoPin (PinNumber 14)),
      (Some (mkDevice None None)), (mkLed initial_state 1), 0,
      [Call (Fade (of_Z 2) (TNumber (of_Z 100)) None); Elapse 100;
       Fire 1%nat].
    split; reflexivity. }
  split; [eexists; reflexivity|].
  split; [reflexivity|].
  vm_compute. intros [_ H]. apply H. reflexivity.
Qed.

(** ** Pulsing *)

Lemma strict_eq_Fin a b : strict_eq (Fin a) (Fin b) = true <-> (a == b)%Q.
Proof. simpl. apply Qeq_bool_iff. Qed.

Lemma strict_eq_trans_l a b c :
  strict_eq a b = true -> strict_eq a c = strict_eq b c.
Proof.
  destruct a as [x| | |], b as [y| | |]; simpl; try discriminate; auto.
  intros H. apply Qeq_bool_iff in H.
  destruct c as [z| | |]; simpl; auto.
  destruct (Qeq_bool x z) eqn:E1, (Qeq_bool y z) eqn:E2; auto.
  - apply Qeq_bool_iff in E1. apply Qeq_bool_neq in E2. exfalso. apply E2.
    rewrite <- H. exact E1.
  - apply Qeq_bool_iff in E2. apply Qeq_bool_neq in E1. exfalso. apply E1.
    rewrite H. exact E2.
Qed.

Lemma progress_done t l :
  (0 < t)%Q -> (t <= inject_Z l)%Q ->
  exists p, progress_of l (Fin t) = Fin p /\ (p == 1)%Q.
Proof.
  intros Ht Hl. unfold progress_of, div, of_Z.
  assert (E : Qeq_bool t 0 = false).
  { destruct (Qeq_bool t 0) eqn:E; [|reflexivity].
    apply Qeq_bool_iff in E. lra. }
  rewrite E. unfold gt, lt.
  assert (Hge : (1 <= inject_Z l / t)%Q).
  { apply Qle_shift_div_l; [exact Ht|]. lra. }
  destruct (Qlt_bool (inject_Z 1) (inject_Z l / t)) eqn:E1.
  - exists (inject_Z 1). split; reflexivity.
  - apply Qlt_bool_false in E1. eexists. split; [reflexivity|].
    apply Qle_antisym; [exact E1|exact Hge].
Qed.

Lemma total_cons ms waits : total (ms :: waits) = Z.of_N ms + total waits.
Proof. unfold total. simpl. apply N2Z.inj_add. Qed.

Lemma total_nonneg waits : 0 <= total waits.
Proof. unfold total. lia. Qed.

Section Pulsing.

(** A device of range [H] pulsing with period [t] and callback [f]. *)
Variables (H : Z) (t : Q) (f : callback).
Hypothesis H_range : 0 < H < 2 ^ 31.
Hypothesis t_positive : (0 < t)%Q.

Lemma extremes_differ : Qeq_bool (inject_Z 0) (inject_Z H) = false.
Proof. Qeq_bool_false. Qed.




(** The target as [pulse] computes it is the target of the
    specification. *)
Lemma pulse_target_code v :
  between 0 H v ->
  (if negb (strict_eq v (of_Z 0))
   then (if strict_eq v (of_Z H) then of_Z 0 else of_Z H)
   else of_Z H) = pulse_target H v.
Proof.
  intros Hv. unfold pulse_target.
  destruct (strict_eq v (of_Z 0)) eqn:E0; simpl; [|reflexivity].
  rewrite (strict_eq_trans_l _ _ _ E0). unfold of_Z, strict_eq.
  rewrite extremes_differ. reflexivity.
Qed.

(** Whatever the value within the range, the [update] captured by the
    [step] closure is [HIGH]. *)
Lemma pulse_update_code v :
  between 0 H v ->
  strict_eq
    (if le v (pulse_target H v) then pulse_target H v
     else sub v (pulse_target H v)) (of_Z H) = true.
Proof.
  intros Hv. unfold pulse_target.
  destruct v as [q| | |]; try contradiction.
  simpl in Hv. destruct Hv as [H0 Hh].
  destruct (strict_eq (Fin q) (of_Z H)) eqn:E.
  - apply strict_eq_Fin in E.
    assert (El : le (Fin q) (of_Z 0) = false).
    { unfold le, of_Z; simpl.
      assert (Hlt : (0 < inject_Z H)%Q)
        by (change 0%Q with (inject_Z 0); rewrite <- Zlt_Qlt; lia).
      change (inject_Z 0) with 0%Q.
      destruct (Qlt_bool q 0) eqn:E1;
        [apply Qlt_bool_true in E1; lra|].
      destruct (Qeq_bool q 0) eqn:E2; [|reflexivity].
      apply Qeq_bool_iff in E2. lra. }
    rewrite El. apply strict_eq_Fin. unfold of_Z. simpl.
    change (inject_Z 0) with 0%Q. lra.
  - unfold of_Z at 1. rewrite (le_of_Qle _ _ Hh).
    apply strict_eq_Fin. reflexivity.
Qed.

Lemma pulse_arms w :
  HIGH (led w) = H -> between 0 H (value (st w)) ->
  pulsing H t f (pulse_target H (value (st w))) (now w)
    (pulse (TNumber (Fin t)) (Some f) w) /\
  value (st (pulse (TNumber (Fin t)) (Some f) w)) = value (st w) /\
  now (pulse (TNumber (Fin t)) (Some f) w) = now w.
Proof.
  intros HHIGH Hv.
  assert (Htruthy : truthy (Fin t) = true).
  { simpl. destruct (Qeq_bool t 0) eqn:E; [|reflexivity].
    apply Qeq_bool_iff in E. lra. }
  pose proof (pulse_target_code _ Hv) as Htarget.
  pose proof (pulse_update_code _ Hv) as Hupdate.
  unfold pulse. rewrite HHIGH. cbv zeta. rewrite Htarget.
  set (u := if le _ _ then _ else _) in *.
  unfold animate. cbv zeta. cbn [duration delta complete step delay].
  rewrite Htruthy.
  destruct (interval (st w)) as [h'|]; (split; [|split; reflexivity]);
    (split; [exact HHIGH|]); (split; [reflexivity|]);
    exists (next_handle w), u; (split; [reflexivity|]);
    (split; [exact Hupdate|]); apply lookup_insert_eq.
Qed.



Lemma progress_under_way l :
  (inject_Z l < t)%Q ->
  strict_eq (progress_of l (Fin t)) (of_Z 1) = false.
Proof.
  intros Hl. unfold progress_of, div, of_Z.
  assert (E : Qeq_bool t 0 = false).
  { destruct (Qeq_bool t 0) eqn:E; [|reflexivity].
    apply Qeq_bool_iff in E. lra. }
  rewrite E. unfold gt, lt.
  assert (Hlt : (inject_Z l / t < 1)%Q).
  { apply Qlt_shift_div_r; [exact t_positive|]. lra. }
  assert (E1 : Qlt_bool (inject_Z 1) (inject_Z l / t) = false).
  { apply Qlt_bool_false. change (inject_Z 1) with 1%Q. lra. }
  rewrite E1. unfold strict_eq.
  destruct (Qeq_bool (inject_Z l / t) (inject_Z 1)) eqn:E2; [|reflexivity].
  apply Qeq_bool_iff in E2. change (inject_Z 1) with 1%Q in E2. lra.
Qed.

(** A tick while the fade is under way: the same fade stays armed and
    nothing completes. *)
Lemma early_tick_pulsing target start ms w :
  (inject_Z (now w + Z.of_N ms - start) < t)%Q ->
  pulsing H t f target start w ->
  pulsing H t f target start (tick_after ms w) /\
  now (tick_after ms w) = now w + Z.of_N ms /\
  user_calls f (trace (tick_after ms w)) = user_calls f (trace w) /\
  complete_calls (trace (tick_after ms w)) = complete_calls (trace w).
Proof.
  intros Hms (HHIGH & Hrun & h & u & Hi & Hu & Htimer).
  unfold tick_after. rewrite Hi. unfold fire.
  change (timers (elapse ms w)) with (timers w). rewrite Htimer.
  cbn [on_tick run_timer]. unfold animate_tick.
  cbn [duration delta step complete apply_delta].
  set (w1 := log (Tick h) (elapse ms w)).
  change (now w1) with (now w + Z.of_N ms).
  rewrite (progress_under_way _ Hms).
  set (d := progress_of _ _).
  set (w2 := run_step _ d w1).
  split; [|split; [|split]].
  - split; [exact HHIGH|]. split; [exact Hrun|].
    exists h, u. split; [exact Hi|]. split; [exact Hu|exact Htimer].
  - reflexivity.
  - subst w2. rewrite run_step_trace. reflexivity.
  - subst w2. rewrite run_step_trace. reflexivity.
Qed.

Lemma early_ticks_pulsing target start early : forall w,
  (inject_Z (now w + total early - start) < t)%Q ->
  pulsing H t f target start w ->
  let w' := foldl (fun w ms => tick_after ms w) w early in
  pulsing H t f target start w' /\
  now w' = now w + total early /\
  user_calls f (trace w') = user_calls f (trace w) /\
  complete_calls (trace w') = complete_calls (trace w).
Proof.
  induction early as [|ms early IH]; intros w Hlt Hp.
  - simpl. unfold total. simpl. split; [exact Hp|]. repeat split. lia.
  - rewrite total_cons in Hlt. pose proof (total_nonneg early) as Hnn.
    assert (Hms : (inject_Z (now w + Z.of_N ms - start) < t)%Q).
    { eapply Qle_lt_trans; [|exact Hlt]. rewrite <- Zle_Qle. lia. }
    destruct (early_tick_pulsing target start ms w Hms Hp)
      as (Hp1 & Hnow1 & Hu1 & Hc1).
    simpl foldl.
    destruct (IH (tick_after ms w)) as (Hp2 & Hnow2 & Hu2 & Hc2);
      [|exact Hp1|].
    { rewrite Hnow1.
      replace (now w + Z.of_N ms + total early - start)
        with (now w + (Z.of_N ms + total early) - start) by lia.
      exact Hlt. }
    split; [exact Hp2|]. rewrite Hnow2, Hnow1, Hu2, Hu1, Hc2, Hc1, total_cons.
    repeat split. lia.
Qed.


End Pulsing.



(** * Further properties of the device *)

(** ** Levels, toggling and blinking *)

Lemma written_HIGH H s :
  0 <= H < 2 ^ 31 -> written H s (of_Z H) = level H s true.
Proof.
  intros HH. unfold written, level.
  assert (E : constrain (of_Z H) (of_Z LOW) (of_Z H) = of_Z H)
    by (apply constrain_id; unfold LOW; rewrite <- Zle_Qle; lia).
  rewrite E.
  destruct s; unfold bitor0, to_int32; simpl xorb; cbv iota.
  - unfold sub, neg, add, of_Z. f_equal.
    rewrite (trunc_Qeq _ 0) by (change (inject_Z 0) with 0%Q; ring).
    reflexivity.
  - unfold of_Z. rewrite trunc_inject_Z, wrap32_small by lia. reflexivity.
Qed.

Lemma written_LOW H s :
  0 <= H < 2 ^ 31 -> written H s (of_Z LOW) = level H s false.
Proof.
  intros HH. unfold written, level.
  assert (E : constrain (of_Z LOW) (of_Z LOW) (of_Z H) = of_Z LOW)
    by (apply constrain_id; unfold LOW; rewrite <- Zle_Qle; lia).
  rewrite E.
  destruct s; unfold bitor0, to_int32; simpl xorb; cbv iota.
  - unfold sub, neg, add, of_Z, LOW. f_equal.
    rewrite (trunc_Qeq _ H) by (change (inject_Z 0) with 0%Q; ring).
    rewrite wrap32_small by lia. reflexivity.
  - reflexivity.
Qed.

(** X1: [on] stores [HIGH] and hands the provider the lit level, [off]
    stores [LOW] and hands it the dark level; on a sink device the two
    levels are swapped (lit is 0, dark is [HIGH]). *)
Theorem on_off_levels (w : world) :
  0 <= HIGH (led w) < 2 ^ 31 ->
  trace (on w) = IoWrite (level (HIGH (led w)) (sink (st w)) true) :: trace w /\
  value (st (on w)) = of_Z (HIGH (led w)) /\
  trace (off w) = IoWrite (level (HIGH (led w)) (sink (st w)) false) :: trace w /\
  value (st (off w)) = of_Z LOW.
Proof.
  intros HH. unfold on, off. rewrite !write_trace.
  cbn [value st priv led set_value with_state HIGH sink].
  rewrite (written_HIGH _ _ HH), (written_LOW _ _ HH). auto.
Qed.

Lemma on_off_levels_witness :
  let w := boot (mkLed (mkState true false (Fin 0) 1 None None) 255) 0 in
  provider_log (trace (off (on w))) = [of_Z 255; of_Z 0].
Proof.
  intros w.
  destruct (on_off_levels w) as (Hon & _); [simpl; lia|].
  destruct (on_off_levels (on w)) as (_ & _ & Hoff & _); [simpl; lia|].
  rewrite Hoff, Hon. reflexivity.
Defined.

Lemma isOn_HIGH w v : v = of_Z (HIGH (led w)) -> HIGH (led w) <> 0 -> truthy v = true.
Proof.
  intros -> Hne. unfold truthy, of_Z. apply negb_true_iff.
  destruct (Qeq_bool _ 0) eqn:E; [|reflexivity].
  apply Qeq_bool_iff in E. unfold Qeq in E. simpl in E. lia.
Qed.

(** X2: [toggle] turns a lit device dark and a dark device lit, leaving
    [LOW] or [HIGH] in the stored value; on a device whose range is the
    single value 0 it can never light it. *)
Theorem toggle_flips (w : world) :
  (HIGH (led w) <> 0 -> isOn (toggle w) = negb (isOn w)) /\
  (HIGH (led w) = 0 -> isOn (toggle w) = false) /\
  value (st (toggle w)) =
    (if isOn w then of_Z LOW else of_Z (HIGH (led w))).
Proof.
  unfold toggle. destruct (isOn w) eqn:E.
  - split; [reflexivity|]. split; reflexivity.
  - split; [|split; [|reflexivity]].
    + intros Hne. unfold isOn, on.
      cbn [value st priv led set_value with_state write io_write log].
      apply (isOn_HIGH w); auto.
    + intros Hz. unfold isOn, on.
      cbn [value st priv led set_value with_state write io_write log].
      rewrite Hz. reflexivity.
Qed.

Lemma ticks_every_S n ms h :
  ticks_every (S n) ms h = ticks_every n ms h ++ [Elapse ms; Fire h].
Proof.
  unfold ticks_every. induction n as [|n IH]; [reflexivity|].
  simpl in *. do 2 f_equal. exact IH.
Qed.

Lemma run_app ins ins' w : run (ins ++ ins') w = run ins' (run ins w).
Proof. unfold run. apply foldl_app. Qed.

Lemma blink_tick_effect (w : world) (h : handle) (cb : option callback)
    (d : jsval) (ms : N) :
  0 < HIGH (led w) < 2 ^ 31 ->
  timers w !! h = Some (mkTimer (BlinkTick cb) d) ->
  let w' := fire h (elapse ms w) in
  isOn w' = negb (isOn w) /\
  provider_log (trace w') =
    level (HIGH (led w)) (sink (st w)) (negb (isOn w))
      :: provider_log (trace w) /\
  timing w' = timing w /\
  HIGH (led w') = HIGH (led w) /\ sink (st w') = sink (st w) /\
  match cb with
  | Some f => user_calls f (trace w') = S (user_calls f (trace w))
  | None => True
  end.
Proof.
  intros HH Ht w'. subst w'. unfold fire.
  change (timers (elapse ms w)) with (timers w). rewrite Ht.
  cbn [on_tick run_timer]. unfold blink_tick.
  set (w1 := log (Tick h) (elapse ms w)).
  assert (HH1 : 0 <= HIGH (led w1) < 2 ^ 31) by (subst w1; simpl; lia).
  unfold toggle. change (isOn w1) with (isOn w).
  destruct (isOn w) eqn:E.
  - assert (Htr : trace (off w1) =
        IoWrite (level (HIGH (led w)) (sink (st w)) false) :: trace w1).
    { unfold off. rewrite write_trace.
      cbn [value st priv led set_value with_state HIGH sink].
      rewrite (written_LOW _ _ HH1). reflexivity. }
    destruct cb as [f|]; unfold call_user; rewrite ?log_trace; rewrite Htr;
      subst w1; simpl; rewrite ?Nat.eqb_refl; repeat split; reflexivity.
  - assert (Htr : trace (on w1) =
        IoWrite (level (HIGH (led w)) (sink (st w)) true) :: trace w1).
    { unfold on. rewrite write_trace.
      cbn [value st priv led set_value with_state HIGH sink].
      rewrite (written_HIGH _ _ HH1). reflexivity. }
    assert (Hon : isOn (on w1) = true).
    { unfold isOn, on.
      cbn [value st priv led set_value with_state write io_write log].
      apply (isOn_HIGH w1); [reflexivity|]. subst w1; simpl; lia. }
    destruct cb as [f|]; unfold call_user; rewrite ?log_trace; rewrite Htr;
      (split; [exact Hon|]); subst w1; simpl; rewrite ?Nat.eqb_refl;
      repeat split; reflexivity.
Qed.

Lemma blink_arms d cb w :
  let cb' := match d with VFunction f => Some f | _ => cb end in
  let w' := blink d cb w in
  (exists d', timers w' !! next_handle w = Some (mkTimer (BlinkTick cb') d')) /\
  interval (st w') = Some (next_handle w) /\ isRunning (st w') = true /\
  HIGH (led w') = HIGH (led w) /\ sink (st w') = sink (st w) /\
  value (st w') = value (st w) /\ trace w' = trace w.
Proof.
  unfold blink, stop.
  destruct (interval (st w)); destruct d; simpl;
    (split; [eexists; apply lookup_insert_eq|]); repeat split; reflexivity.
Qed.

(** X3: after [blink], whatever its duration, every tick of its timer
    flips the device: after [n] ticks it is lit exactly when [n] is odd
    (starting dark), the provider has received the [n] alternating levels,
    the callback has run [n] times and the device is still running. *)
Theorem blink_alternates
    (w : world) (d : jsval) (cb : option callback) (ms : N) (n : nat) :
  0 < HIGH (led w) < 2 ^ 31 ->
  let h := next_handle w in
  let wn := run (Call (Blink d cb) :: ticks_every n ms h) w in
  isOn wn = xorb (isOn w) (Nat.odd n) /\
  provider_log (trace wn) =
    rev (map (fun k => level (HIGH (led w)) (sink (st w))
                         (xorb (isOn w) (Nat.even k)))
           (seq 0 n))
    ++ provider_log (trace w) /\
  isRunning (st wn) = true /\ interval (st wn) = Some h /\
  match (match d with VFunction f => Some f | _ => cb end) with
  | Some f => user_calls f (trace wn) = (n + user_calls f (trace w))%nat
  | None => True
  end.
Proof.
  intros HH h wn. subst wn.
  change (Call (Blink d cb) :: ticks_every n ms h)
    with ([Call (Blink d cb)] ++ ticks_every n ms h).
  rewrite run_app. change (run [Call (Blink d cb)] w) with (blink d cb w).
  destruct (blink_arms d cb w)
    as ((d' & Htimer) & Hi & Hrun & HHIGH & Hsink & Hval & Htrace).
  set (cb' := match d with VFunction f => Some f | _ => cb end) in *.
  set (w0 := blink d cb w) in *.
  assert (Hon0 : isOn w0 = isOn w) by (unfold isOn; rewrite Hval; reflexivity).
  assert (Hinv :
    timing (run (ticks_every n ms h) w0) = timing w0 /\
    HIGH (led (run (ticks_every n ms h) w0)) = HIGH (led w) /\
    sink (st (run (ticks_every n ms h) w0)) = sink (st w) /\
    isOn (run (ticks_every n ms h) w0) = xorb (isOn w) (Nat.odd n) /\
    provider_log (trace (run (ticks_every n ms h) w0)) =
      rev (map (fun k => level (HIGH (led w)) (sink (st w))
                           (xorb (isOn w) (Nat.even k))) (seq 0 n))
      ++ provider_log (trace w) /\
    match cb' with
    | Some f => user_calls f (trace (run (ticks_every n ms h) w0))
                = (n + user_calls f (trace w))%nat
    | None => True
    end).
  { induction n as [|n IH].
    - simpl. rewrite Hon0, Htrace, xorb_false_r.
      repeat split; try assumption. destruct cb'; auto.
    - rewrite ticks_every_S, run_app.
      destruct IH as (Ht & HH' & Hs' & Hon & Hlog & Hcalls).
      set (wn := run (ticks_every n ms h) w0) in *.
      change (run [Elapse ms; Fire h] wn) with (fire h (elapse ms wn)).
      assert (Htimer' : timers wn !! h = Some (mkTimer (BlinkTick cb') d')).
      { unfold timing in Ht. injection Ht as _ _ -> _. exact Htimer. }
      assert (HHn : 0 < HIGH (led wn) < 2 ^ 31) by (rewrite HH'; exact HH).
      destruct (blink_tick_effect wn h cb' d' ms HHn Htimer')
        as (Hon1 & Hlog1 & Ht1 & HH1 & Hs1 & Hcalls1).
      split; [rewrite Ht1; exact Ht|].
      split; [rewrite HH1; exact HH'|].
      split; [rewrite Hs1; exact Hs'|].
      split; [rewrite Hon1, Hon, Nat.odd_succ, <- Nat.negb_odd;
              destruct (isOn w), (Nat.odd n); reflexivity|].
      split.
      + rewrite Hlog1, Hlog, HH', Hs', Hon, seq_S, map_app, rev_app_distr.
        simpl. rewrite <- Nat.negb_odd.
        destruct (isOn w), (Nat.odd n); reflexivity.
      + destruct cb' as [f|]; [|exact I]. rewrite Hcalls1, Hcalls. reflexivity. }
  destruct Hinv as (Ht & _ & _ & Hon & Hlog & Hcalls).
  unfold timing in Ht. injection Ht as Hi' Hrun' _ _.
  split; [exact Hon|]. split; [exact Hlog|].
  split; [rewrite Hrun'; exact Hrun|]. split; [rewrite Hi'; exact Hi|].
  exact Hcalls.
Qed.

Lemma blink_alternates_witness :
  let w := boot (mkLed initial_state 1) 0 in
  let wn := run (Call (Blink (VNumber (of_Z 50)) None)
                   :: ticks_every 4 50 1%nat) w in
  isOn wn = false /\
  provider_log (trace wn) = [of_Z 0; of_Z 1; of_Z 0; of_Z 1].
Proof.
  intros w wn.
  destruct (blink_alternates w (VNumber (of_Z 50)) None 50 4)
    as (Hon & Hlog & _).
  - simpl. lia.
  - split; [exact Hon|exact Hlog].
Defined.

(** X4: [stop] leaves no timer behind, writes nothing and keeps the
    stored value; from then on, however long the timer facility runs,
    the device and the trace stay as they are. *)
Theorem stop_halts (w : world) (ins : list input) :
  reachable w -> Forall timer_only ins ->
  isRunning (st (stop w)) = false /\
  interval (st (stop w)) = None /\
  timers (stop w) = ∅ /\
  value (st (stop w)) = value (st w) /\
  trace (stop w) = trace w /\
  led (run ins (stop w)) = led (stop w) /\
  trace (run ins (stop w)) = trace w.
Proof.
  intros Hr Hins.
  pose proof (stop_coherent w (reachable_coherent w Hr)) as Hc.
  assert (Hi : interval (st (stop w)) = None)
    by (unfold stop; destruct (interval (st w)); reflexivity).
  unfold coherent in Hc. rewrite Hi in Hc. destruct Hc as [Hrun Hempty].
  assert (Hval : value (st (stop w)) = value (st w))
    by (unfold stop; destruct (interval (st w)); reflexivity).
  assert (Htr : trace (stop w) = trace w)
    by (unfold stop; destruct (interval (st w)); reflexivity).
  repeat (split; [assumption|]).
  set (w0 := stop w) in *. rewrite <- Htr. clearbody w0.
  assert (Hrun_ins : timers (run ins w0) = ∅ /\
            led (run ins w0) = led w0 /\ trace (run ins w0) = trace w0).
  { induction ins as [|i ins IH] using rev_ind; [auto|].
    apply Forall_app in Hins as [Hins Hi']. apply Forall_inv in Hi'.
    destruct (IH Hins) as (Ht & Hl & Htrace).
    rewrite run_snoc. destruct i as [m|ms|h]; [contradiction| |].
    - simpl. auto.
    - simpl. unfold fire. rewrite Ht, lookup_empty. auto. }
  destruct Hrun_ins as (_ & Hl & Htrace). auto.
Qed.

Lemma stop_halts_witness :
  let w := run [Call (Blink VUndefined None)]
             (boot (mkLed initial_state 1) 0) in
  timers (stop w) = ∅ /\
  trace (run [Elapse 100; Fire 1%nat; Elapse 100; Fire 1%nat] (stop w))
    = trace w.
Proof.
  intros w.
  destruct (stop_halts w [Elapse 100; Fire 1%nat; Elapse 100; Fire 1%nat])
    as (_ & _ & Ht & _ & _ & _ & Htr).
  - exact blinking_reachable.
  - repeat constructor.
  - split; [exact Ht|exact Htr].
Defined.

(** X5: [isRunning] is true exactly when [#state.interval] holds a
    handle, and that handle is then the only registered timer; it is
    false exactly when there is no handle and no timer. *)
Theorem running_iff_timer (w : world) :
  reachable w ->
  (isRunning (st w) = true <->
   exists h e, interval (st w) = Some h /\ timers w = {[ h := e ]}) /\
  (isRunning (st w) = false <->
   interval (st w) = None /\ timers w = ∅).
Proof.
  intros Hr. pose proof (reachable_coherent w Hr) as Hc.
  unfold coherent in Hc. destruct (interval (st w)) as [h|].
  - destruct Hc as (Hrun & _ & e & Ht). rewrite Hrun. split.
    + split; [intros _; exists h, e; auto|reflexivity].
    + split; [discriminate|intros [? _]; discriminate].
  - destruct Hc as (Hrun & Ht). rewrite Hrun. split.
    + split; [discriminate|intros (h & e & ? & _); discriminate].
    + split; [auto|reflexivity].
Qed.

Lemma running_iff_timer_witness :
  let w := run [Call (Blink VUndefined None)]
             (boot (mkLed initial_state 1) 0) in
  isRunning (st w) = true <->
  exists h e, interval (st w) = Some h /\ timers w = {[ h := e ]}.
Proof.
  intros w. exact (proj1 (running_iff_timer w blinking_reachable)).
Defined.

(** ** What reaches the provider, and what never changes *)

Lemma written_range H s v :
  0 <= H < 2 ^ 31 -> integer_level H (written H s v).
Proof.
  intros [H0 H31]. unfold written, bitor0, integer_level.
  eexists. split; [reflexivity|].
  assert (Hdec : v = NaN \/ v <> NaN)
    by (destruct v; auto; right; discriminate).
  destruct Hdec as [-> | Hnan].
  - unfold constrain; simpl. destruct s; simpl; unfold LOW; lia.
  - pose proof (constrain_between v H H0 Hnan) as Hc.
    destruct s.
    + destruct (to_int32_between _ H H31 (sub_between _ H Hc)) as [Hb _].
      exact Hb.
    + destruct (to_int32_between _ H H31 Hc) as [Hb _]. exact Hb.
Qed.

Lemma stop_trace w : trace (stop w) = trace w.
Proof. unfold stop. destruct (interval (st w)); reflexivity. Qed.

Lemma blink_trace d cb w : trace (blink d cb w) = trace w.
Proof.
  unfold blink, stop. destruct (interval (st w)); destruct d; reflexivity.
Qed.

Lemma animate_trace o w : trace (animate o w) = trace w.
Proof. unfold animate. destruct (interval (st w)); reflexivity. Qed.

Lemma fade_trace v t cb w : trace (fade v t cb w) = trace w.
Proof. unfold fade. destruct t; apply animate_trace. Qed.

Lemma run_complete_provider_log c w :
  provider_log (trace (run_complete c w)) = provider_log (trace w).
Proof.
  destruct c as [time [f|]|[f|]]; unfold run_complete, call_user;
    rewrite ?log_trace, ?pulse_trace, ?log_trace; reflexivity.
Qed.

(** One input hands at most one value to the provider, and when it is
    not a call of [brightness] that value comes out of [write]. *)
Lemma exec_provider_log i w :
  no_brightness i ->
  provider_log (trace (exec i w)) = provider_log (trace w) \/
  exists s v,
    provider_log (trace (exec i w)) =
    written (HIGH (led w)) s v :: provider_log (trace w).
Proof.
  intros Hi. destruct i as [m|ms|h]; cbn [exec].
  - destruct m as [| | |d cb|v|t cb|v t cb|t cb|t cb|];
      cbn [call no_brightness] in *; try contradiction.
    + right. eexists _, _. unfold on. rewrite write_trace. reflexivity.
    + right. eexists _, _. unfold off. rewrite write_trace. reflexivity.
    + right. unfold toggle. destruct (isOn w); eexists _, _;
        [unfold off|unfold on]; rewrite write_trace; reflexivity.
    + left. rewrite blink_trace. reflexivity.
    + left. rewrite pulse_trace. reflexivity.
    + left. rewrite fade_trace. reflexivity.
    + left. unfold fadeIn. rewrite fade_trace. reflexivity.
    + left. unfold fadeOut. rewrite fade_trace. reflexivity.
    + left. rewrite stop_trace. reflexivity.
  - auto.
  - unfold fire. destruct (timers w !! h) as [[cb p]|]; [|auto].
    right. destruct cb as [f|start opts]; cbn [on_tick run_timer].
    + unfold blink_tick, toggle.
      destruct (isOn _); eexists _, _;
        [unfold off|unfold on]; destruct f; unfold call_user;
        rewrite ?log_trace, write_trace; reflexivity.
    + unfold animate_tick.
      set (d := apply_delta _ _).
      set (w1 := log (Tick h) w).
      assert (Hstep : provider_log (trace (run_step (step opts) d w1)) =
        written (HIGH (led w)) (sink (st w))
          (value (st (run_step (step opts) d w1)))
        :: provider_log (trace w)).
      { rewrite run_step_trace. reflexivity. }
      eexists _, _.
      destruct (strict_eq _ _); [destruct (complete opts)|];
        rewrite ?run_complete_provider_log; exact Hstep.
Qed.

(** X6: as long as [brightness] is not called, every value the provider
    ever receives is an integer between [LOW] and [HIGH], whatever the
    arguments of the other calls are. *)
Theorem provider_levels gp io device l t0 ins :
  Led_constructor gp io device = Normal l ->
  0 <= HIGH l ->
  Forall no_brightness ins ->
  Forall (integer_level (HIGH l))
    (provider_log (trace (run ins (boot l t0)))).
Proof.
  intros Hl Hh Hins.
  destruct (constructor_fields _ _ _ _ Hl) as (o & r & _ & Hr & _).
  assert (HH : 0 <= HIGH l < 2 ^ 31).
  { apply pwm_range_bounds. rewrite Hr in *. apply high_of_range. exact Hh. }
  induction ins as [|i ins IH] using rev_ind; [constructor|].
  apply Forall_app in Hins as [Hins Hi]. apply Forall_inv in Hi.
  rewrite run_snoc.
  destruct (exec_provider_log i (run ins (boot l t0)) Hi)
    as [-> | (s & v & ->)]; [auto|].
  constructor; [|auto].
  rewrite run_HIGH. apply written_range. exact HH.
Qed.

Lemma provider_levels_witness :
  Forall (integer_level 1)
    (provider_log
       (trace (run [Call (Fade (of_Z 7) (TNumber (of_Z 100)) None);
                    Elapse 50; Fire 1%nat; Call On]
                 (boot (mkLed initial_state 1) 0)))).
Proof.
  apply (provider_levels (fun _ _ => Normal (mkProvider None))
           (IoPin (PinNumber 14)) (Some (mkDevice None None))
           (mkLed initial_state 1) 0).
  - reflexivity.
  - simpl. lia.
  - repeat constructor.
Defined.

Lemma animate_config o w : config (animate o w) = config w.
Proof. unfold animate. destruct (interval (st w)); reflexivity. Qed.

Lemma pulse_config t cb w : config (pulse t cb w) = config w.
Proof. unfold pulse. destruct t; apply animate_config. Qed.

Lemma fade_config v t cb w : config (fade v t cb w) = config w.
Proof. unfold fade. destruct t; apply animate_config. Qed.

Lemma toggle_config w : config (toggle w) = config w.
Proof. unfold toggle. destruct (isOn w); reflexivity. Qed.

Lemma call_config m w : config (call m w) = config w.
Proof.
  destruct m as [| | |d cb|v|t cb|v t cb|t cb|t cb|]; cbn [call];
    try reflexivity.
  - apply toggle_config.
  - unfold blink, stop. destruct (interval (st w)); destruct d; reflexivity.
  - apply pulse_config.
  - apply fade_config.
  - apply fade_config.
  - apply fade_config.
  - unfold stop. destruct (interval (st w)); reflexivity.
Qed.

Lemma run_step_config s d w : config (run_step s d w) = config w.
Proof. destruct s; reflexivity. Qed.

Lemma run_complete_config c w : config (run_complete c w) = config w.
Proof.
  destruct c as [time cb|cb]; unfold run_complete.
  - transitivity (config (pulse (TNumber time) cb (log CompleteCall w)));
      [destruct cb; reflexivity|rewrite pulse_config; reflexivity].
  - destruct cb; reflexivity.
Qed.

Lemma fire_config h w : config (fire h w) = config w.
Proof.
  unfold fire. destruct (timers w !! h) as [[cb ms]|]; [|reflexivity].
  destruct cb as [f|start opts]; cbn [on_tick run_timer].
  - unfold blink_tick.
    transitivity (config (toggle (log (Tick h) w)));
      [destruct f; reflexivity|rewrite toggle_config; reflexivity].
  - unfold animate_tick.
    destruct (strict_eq _ _); [destruct (complete opts)|];
      rewrite ?run_complete_config, run_step_config; reflexivity.
Qed.

(** X7: no method and no tick changes [HIGH], [sink] or [mode]. *)
Theorem configuration_is_fixed (w : world) (ins : list input) :
  config (run ins w) = config w.
Proof.
  induction ins as [|i ins IH] using rev_ind; [reflexivity|].
  rewrite run_snoc, <- IH.
  destruct i as [m|ms|h]; cbn [exec];
    [apply call_config|reflexivity|apply fire_config].
Qed.

Lemma run_config ins w : config (run ins w) = config w.
Proof.
  induction ins as [|i ins IH] using rev_ind; [reflexivity|].
  rewrite run_snoc, <- IH.
  destruct i as [m|ms|h]; cbn [exec];
    [apply call_config|reflexivity|apply fire_config].
Qed.

(** X8: the getter [mode] of a constructed device always yields
    [null]: nothing ever assigns it. *)
Theorem mode_is_null (w : world) : reachable w -> mode (st w) = None.
Proof.
  intros (gp & io & device & l & t0 & ins & Hl & ->).
  pose proof (run_config ins (boot l t0)) as Hc.
  unfold config in Hc. injection Hc as _ _ ->.
  unfold Led_constructor in Hl.
  destruct (normalizeParams io device) as [[ioOpts deviceOpts]|e];
    simpl in Hl; [|discriminate].
  destruct (gp ioOpts "builtin/digital"%string) as [p|e]; simpl in Hl;
    [|discriminate].
  destruct device as [o|]; simpl in Hl; [|discriminate].
  injection Hl as <-. destruct (opt_sink o) as [[|]|]; reflexivity.
Qed.

Lemma mode_is_null_witness :
  mode (st (run [Call (Blink VUndefined None)]
              (boot (mkLed initial_state 1) 0))) = None.
Proof. exact (mode_is_null _ blinking_reachable). Defined.

Lemma high_of_pwm r : 1 <= r <= 30 -> high_of (Some r) = 2 ^ r - 1.
Proof.
  intros Hr. unfold high_of, shl1.
  destruct (Z.eqb_spec r 0); [lia|].
  rewrite Z.mod_small by lia. rewrite Z.shiftl_1_l.
  assert (2 ^ 1 <= 2 ^ r) by (apply Z.pow_le_mono_r; lia).
  assert (2 ^ r <= 2 ^ 30) by (apply Z.pow_le_mono_r; lia).
  rewrite wrap32_small; lia.
Qed.

(** X9: once the parameters are normalised, a failure of the provider
    resolver is the outcome of the constructor, whether or not [device]
    was given; when the resolver succeeds, construction succeeds exactly
    for a given [device], with an idle, dark device, [sink] the truthiness
    of [device.sink], and [HIGH] 1 without a resolution and [2^r - 1] for
    a resolution [r] from 1 to 30. *)
Theorem constructor_outcome gp io device ioOpts deviceOpts :
  normalizeParams io device = Normal (ioOpts, deviceOpts) ->
  (forall e, gp ioOpts "builtin/digital"%string = Throw e ->
     Led_constructor gp io device = Throw e) /\
  (forall p, gp ioOpts "builtin/digital"%string = Normal p ->
     match device with
     | None => Led_constructor gp io device = Throw TypeError
     | Some o =>
         exists l,
           Led_constructor gp io device = Normal l /\
           sink (priv l) = default false (opt_sink o) /\
           isRunning (priv l) = false /\ interval (priv l) = None /\
           value (priv l) = Fin 0 /\ direction (priv l) = 1 /\
           HIGH l = high_of (resolution p) /\
           (resolution p = None \/ resolution p = Some 0 -> HIGH l = 1) /\
           (forall r, resolution p = Some r -> 1 <= r <= 30 ->
              HIGH l = 2 ^ r - 1)
     end).
Proof.
  intros Hn. unfold Led_constructor. rewrite Hn. simpl. split.
  - intros e ->. reflexivity.
  - intros p ->. simpl. destruct device as [o|]; simpl; [|reflexivity].
    eexists. split; [reflexivity|].
    destruct (opt_sink o) as [[|]|]; simpl;
      (repeat (split; [reflexivity|])); split.
    all: try (intros [-> | ->]; reflexivity).
    all: intros r -> Hr; apply high_of_pwm; exact Hr.
Qed.

Lemma constructor_outcome_witness :
  exists l,
    Led_constructor (fun _ _ => Normal (mkProvider (Some 8)))
      (IoPin (PinNumber 14)) (Some (mkDevice (Some true) None)) = Normal l /\
    sink (priv l) = true /\ HIGH l = 255.
Proof.
  destruct (constructor_outcome (fun _ _ => Normal (mkProvider (Some 8)))
              (IoPin (PinNumber 14)) (Some (mkDevice (Some true) None))
              (mkIo None (Some (PinNumber 14))) (mkDevice (Some true) None))
    as [_ Hok]; [reflexivity|].
  destruct (Hok (mkProvider (Some 8)) eq_refl)
    as (l & Hl & Hs & _ & _ & _ & _ & _ & _ & Hr).
  exists l. split; [exact Hl|]. split; [exact Hs|].
  apply (Hr 8); [reflexivity|lia].
Defined.

(** ** Fading *)

Section Fading.

Variables (t : Q) (previous update : number) (cb : option callback).
Variable start : Z.

Lemma fade_tick ms w :
  fading t previous update cb start w ->
  let p := progress_of (now w + Z.of_N ms - start) (Fin t) in
  let w' := tick_after ms w in
  fading t previous update cb start w' /\
  now w' = now w + Z.of_N ms /\
  value (st w') = add previous (mul update p) /\
  config w' = config w /\
  provider_log (trace w') =
    written (HIGH (led w)) (sink (st w)) (value (st w'))
      :: provider_log (trace w) /\
  complete_calls (trace w') =
    (if strict_eq p (of_Z 1) then S (complete_calls (trace w))
     else complete_calls (trace w)) /\
  match cb with
  | Some f =>
      user_calls f (trace w') =
      (if strict_eq p (of_Z 1) then S (user_calls f (trace w))
       else user_calls f (trace w))
  | None => True
  end.
Proof.
  intros (Hrun & h & Hi & Htimer) p w'. subst w'.
  unfold tick_after. rewrite Hi. unfold fire.
  change (timers (elapse ms w)) with (timers w). rewrite Htimer.
  cbn [on_tick run_timer]. unfold animate_tick.
  cbn [duration delta step complete apply_delta].
  set (w1 := log (Tick h) (elapse ms w)).
  change (now w1) with (now w + Z.of_N ms). fold p.
  set (w2 := run_step (FadeStep previous update) p w1).
  assert (H2 : fading t previous update cb start w2 /\
               now w2 = now w + Z.of_N ms /\
               value (st w2) = add previous (mul update p) /\
               config w2 = config w /\
               trace w2 =
                 IoWrite (written (HIGH (led w)) (sink (st w)) (value (st w2)))
                   :: StepCall p :: Tick h :: trace w).
  { split; [split; [exact Hrun|exists h; split; [exact Hi|exact Htimer]]|].
    repeat split. }
  destruct H2 as (Hf & Hnow & Hval & Hconf & Htr).
  destruct (strict_eq p (of_Z 1)).
  - unfold run_complete.
    destruct cb as [f|]; unfold call_user; rewrite ?log_trace, Htr; simpl;
      rewrite ?Nat.eqb_refl;
      (split; [exact Hf|]); repeat (split; [assumption || reflexivity|]);
      reflexivity || exact I.
  - rewrite Htr.
    destruct cb; simpl;
      (split; [exact Hf|]); repeat (split; [assumption || reflexivity|]);
      reflexivity || exact I.
Qed.

(** Any number of ticks: the fade stays armed as it was, and after the
    last tick the stored value is the closure's value at the progress of
    that moment. *)
Lemma fade_ticks waits : forall w,
  fading t previous update cb start w ->
  let w' := ticks_after waits w in
  fading t previous update cb start w' /\
  now w' = now w + total waits /\
  config w' = config w /\
  (waits <> [] ->
   value (st w') =
     add previous
       (mul update (progress_of (now w + total waits - start) (Fin t))) /\
   exists rest,
     provider_log (trace w') =
       written (HIGH (led w)) (sink (st w)) (value (st w')) :: rest).
Proof.
  induction waits as [|ms waits IH] using rev_ind; intros w Hf.
  - unfold ticks_after, total; simpl. split; [exact Hf|].
    split; [lia|]. split; [reflexivity|]. congruence.
  - unfold ticks_after. rewrite foldl_app. fold (ticks_after waits w).
    destruct (IH w Hf) as (Hf1 & Hnow1 & Hc1 & _).
    set (w1 := ticks_after waits w) in *.
    cbn [foldl].
    destruct (fade_tick ms w1 Hf1) as (Hf2 & Hnow2 & Hval & Hc2 & Hlog & _).
    assert (Htotal : total (waits ++ [ms]) = total waits + Z.of_N ms).
    { clear. induction waits as [|a waits IH]; simpl.
      - unfold total. simpl. lia.
      - rewrite !total_cons, IH. lia. }
    split; [exact Hf2|]. split; [rewrite Hnow2, Hnow1, Htotal; lia|].
    split; [rewrite Hc2; exact Hc1|]. intros _. split.
    + rewrite Hval, Hnow1, Htotal.
      replace (now w + total waits + Z.of_N ms - start)
        with (now w + (total waits + Z.of_N ms) - start) by lia.
      reflexivity.
    + eexists. rewrite Hlog. unfold config in Hc1.
      injection Hc1 as -> -> _. reflexivity.
Qed.

(** With a negative time nothing ever completes. *)
Lemma negative_fade_ticks waits : forall w,
  (t < 0)%Q -> start <= now w ->
  fading t previous update cb start w ->
  let w' := ticks_after waits w in
  complete_calls (trace w') = complete_calls (trace w) /\
  match cb with
  | Some f => user_calls f (trace w') = user_calls f (trace w)
  | None => True
  end.
Proof.
  induction waits as [|ms waits IH] using rev_ind; intros w Ht Hs Hf.
  - unfold ticks_after; simpl. destruct cb; auto.
  - unfold ticks_after. rewrite foldl_app. fold (ticks_after waits w).
    destruct (IH w Ht Hs Hf) as (Hc1 & Hu1).
    destruct (fade_ticks waits w Hf) as (Hf1 & Hnow1 & _).
    set (w1 := ticks_after waits w) in *. cbn [foldl].
    destruct (fade_tick ms w1 Hf1) as (_ & _ & _ & _ & _ & Hc2 & Hu2).
    assert (Hp : strict_eq
              (progress_of (now w1 + Z.of_N ms - start) (Fin t)) (of_Z 1)
              = false).
    { pose proof (total_nonneg waits) as Hnn.
      set (l := now w1 + Z.of_N ms - start).
      assert (Hl : (0 <= inject_Z l)%Q)
        by (change 0%Q with (inject_Z 0); rewrite <- Zle_Qle; lia).
      unfold progress_of, div, of_Z.
      assert (E : Qeq_bool t 0 = false).
      { destruct (Qeq_bool t 0) eqn:E; [|reflexivity].
        apply Qeq_bool_iff in E. lra. }
      rewrite E.
      assert (Hle : (inject_Z l / t <= 0)%Q).
      { unfold Qdiv.
        assert (Hinv : (/ t < 0)%Q).
        { apply Qnot_le_lt. intros Hge.
          assert (Hone : (t * / t == 1)%Q)
            by (apply Qmult_inv_r; intros He; rewrite He in Ht; lra).
          assert (Hprod : (t * / t <= 0)%Q) by nra.
          rewrite Hone in Hprod. lra. }
        nra. }
      unfold gt, lt.
      assert (E1 : Qlt_bool (inject_Z 1) (inject_Z l / t) = false).
      { apply Qlt_bool_false. change (inject_Z 1) with 1%Q. lra. }
      rewrite E1. unfold strict_eq.
      destruct (Qeq_bool (inject_Z l / t) (inject_Z 1)) eqn:E2;
        [|reflexivity].
      apply Qeq_bool_iff in E2. change (inject_Z 1) with 1%Q in E2. lra. }
    rewrite Hp in Hc2, Hu2. split; [congruence|].
    destruct cb; [congruence|exact I].
Qed.

End Fading.

Lemma fade_arms val t cb w :
  truthy (Fin t) = true ->
  fading t (if truthy (value (st w)) then value (st w) else of_Z 0)
    (sub val (value (st w))) cb (now w)
    (fade val (TNumber (Fin t)) cb w) /\
  now (fade val (TNumber (Fin t)) cb w) = now w /\
  config (fade val (TNumber (Fin t)) cb w) = config w /\
  trace (fade val (TNumber (Fin t)) cb w) = trace w.
Proof.
  intros Ht. unfold fade, animate. cbv zeta.
  cbn [duration delta complete step delay]. rewrite Ht.
  destruct (interval (st w)) as [h'|];
    (split; [split; [reflexivity|]; exists (next_handle w);
             split; [reflexivity|apply lookup_insert_eq]|]);
    repeat split.
Qed.

Lemma config_fields w w' :
  config w' = config w ->
  HIGH (led w') = HIGH (led w) /\ sink (st w') = sink (st w).
Proof. unfold config. intros [= -> -> _]. auto. Qed.

Lemma total_snoc waits ms : total (waits ++ [ms]) = total waits + Z.of_N ms.
Proof.
  induction waits as [|a waits IH]; simpl.
  - unfold total. simpl. lia.
  - rewrite !total_cons, IH. lia.
Qed.

Lemma truthy_nonzero t : ~ (t == 0)%Q -> truthy (Fin t) = true.
Proof.
  intros Ht. simpl. destruct (Qeq_bool t 0) eqn:E; [|reflexivity].
  apply Qeq_bool_iff in E. contradiction.
Qed.

Lemma total_app a b : total (a ++ b) = total a + total b.
Proof.
  induction a as [|ms a IH]; simpl.
  - unfold total at 2. simpl. lia.
  - rewrite !total_cons, IH. lia.
Qed.

Lemma ticks_after_app a b w :
  ticks_after (a ++ b) w = ticks_after b (ticks_after a w).
Proof. unfold ticks_after. apply foldl_app. Qed.

(** The progress over a positive time lies in [[0, 1]] and does not
    decrease with the time elapsed. *)
Lemma progress_grows t l1 l2 :
  (0 < t)%Q -> 0 <= l1 <= l2 ->
  exists p1 p2,
    progress_of l1 (Fin t) = Fin p1 /\ progress_of l2 (Fin t) = Fin p2 /\
    (0 <= p1)%Q /\ (p1 <= p2)%Q /\ (p2 <= 1)%Q.
Proof.
  intros Ht Hl. unfold progress_of, div, of_Z.
  assert (E : Qeq_bool t 0 = false).
  { destruct (Qeq_bool t 0) eqn:E; [|reflexivity].
    apply Qeq_bool_iff in E. lra. }
  rewrite E. unfold gt, lt.
  assert (H1 : (0 <= inject_Z l1)%Q)
    by (change 0%Q with (inject_Z 0); rewrite <- Zle_Qle; lia).
  assert (H12 : (inject_Z l1 <= inject_Z l2)%Q)
    by (rewrite <- Zle_Qle; lia).
  assert (Hq1 : (0 <= inject_Z l1 / t)%Q)
    by (apply Qle_shift_div_l; [exact Ht|lra]).
  assert (Hq12 : (inject_Z l1 / t <= inject_Z l2 / t)%Q).
  { apply Qle_shift_div_l; [exact Ht|].
    assert (Hc : (inject_Z l1 / t * t == inject_Z l1)%Q)
      by (field; intros He; rewrite He in Ht; lra).
    rewrite Hc. exact H12. }
  destruct (Qlt_bool (inject_Z 1) (inject_Z l1 / t)) eqn:E1,
           (Qlt_bool (inject_Z 1) (inject_Z l2 / t)) eqn:E2;
    eexists _, _; (split; [reflexivity|]); (split; [reflexivity|]);
    try apply Qlt_bool_true in E1; try apply Qlt_bool_false in E1;
    try apply Qlt_bool_true in E2; try apply Qlt_bool_false in E2;
    change (inject_Z 1) with 1%Q in *; repeat split; lra.
Qed.

(** X10: a fade over a positive time from the integer value [v] to the
    integer target [x] (integers of magnitude at most [2^52], which a
    number holds exactly together with their difference) keeps the stored
    value between [v] and [x] at every tick, never moves it back towards
    [v] from one tick to a later one, stores exactly [x] at every tick
    that comes when the time is up, and leaves the device running. *)
Theorem fade_interpolates
    (w : world) (v x : Z) (t : Q) (cb : option callback)
    (waits : list N) (last : N) (more : list N) :
  - 2 ^ 52 <= v <= 2 ^ 52 -> - 2 ^ 52 <= x <= 2 ^ 52 ->
  value (st w) = of_Z v -> (0 < t)%Q ->
  let l := total waits + Z.of_N last in
  let w' :=
    ticks_after (waits ++ [last]) (fade (of_Z x) (TNumber (Fin t)) cb w) in
  let w'' := ticks_after more w' in
  between (Z.min v x) (Z.max v x) (value (st w')) /\
  ((t <= inject_Z l)%Q -> strict_eq (value (st w')) (of_Z x) = true) /\
  (if v <=? x then le (value (st w')) (value (st w''))
   else le (value (st w'')) (value (st w'))) = true /\
  isRunning (st w') = true.
Proof.
  intros _ _ Hv Ht l w' w''.
  assert (Htruthy : truthy (Fin t) = true)
    by (apply truthy_nonzero; intros He; rewrite He in Ht; lra).
  destruct (fade_arms (of_Z x) t cb w Htruthy) as (Hf & Hnow & _ & _).
  set (w0 := fade (of_Z x) (TNumber (Fin t)) cb w) in *.
  pose proof (total_nonneg waits) as Hnn.
  pose proof (total_nonneg more) as Hnn'.
  (* the value after the ticks [waits ++ [last]] and after [more] *)
  assert (Hticks : forall ws, ws <> [] ->
            value (st (ticks_after ws w0)) =
            add (if truthy (value (st w)) then value (st w) else of_Z 0)
              (mul (sub (of_Z x) (value (st w)))
                 (progress_of (total ws) (Fin t)))).
  { intros ws Hws.
    destruct (fade_ticks t _ _ cb (now w) ws w0 Hf) as (_ & _ & _ & Hlast).
    destruct (Hlast Hws) as (Hval & _). rewrite Hval, Hnow.
    replace (now w + total ws - now w) with (total ws) by lia.
    reflexivity. }
  assert (Hprev : exists pv,
            (if truthy (value (st w)) then value (st w) else of_Z 0) = Fin pv /\
            (pv == inject_Z v)%Q).
  { rewrite Hv. unfold of_Z, truthy.
    destruct (Qeq_bool (inject_Z v) 0) eqn:E; simpl.
    - apply Qeq_bool_iff in E. exists (inject_Z 0). split; [reflexivity|].
      rewrite E. reflexivity.
    - exists (inject_Z v). split; reflexivity. }
  destruct Hprev as (pv & Hpv & Hpv_eq).
  assert (Hl : total (waits ++ [last]) = l) by apply total_snoc.
  assert (Hl0 : 0 <= l) by (subst l; lia).
  destruct (progress_grows t l (l + total more) Ht) as
    (p1 & p2 & Hp1 & Hp2 & H01 & H12 & H21); [lia|].
  assert (Hval' : value (st w') = Fin (pv + (inject_Z x + - inject_Z v) * p1)).
  { unfold w'. rewrite Hticks by (destruct waits; discriminate).
    rewrite Hl, Hp1, Hpv, Hv. reflexivity. }
  assert (Hval'' : exists p,
            value (st w'') = Fin (pv + (inject_Z x + - inject_Z v) * p) /\
            (p1 <= p)%Q /\ (p <= 1)%Q).
  { destruct more as [|m more'].
    - exists p1. split; [exact Hval'|]. split; lra.
    - exists p2. split; [|split; assumption].
      unfold w'', w'. rewrite <- ticks_after_app.
      rewrite Hticks by (destruct waits; discriminate).
      rewrite total_app, Hl, Hp2, Hpv, Hv. reflexivity. }
  destruct Hval'' as (p & Hval'' & Hp1p & Hp1').
  split; [|split; [|split]].
  - rewrite Hval'. simpl.
    destruct (Z.le_ge_cases v x) as [Hvx|Hvx].
    + rewrite Z.min_l, Z.max_r by lia.
      assert ((inject_Z v <= inject_Z x)%Q) by (rewrite <- Zle_Qle; lia).
      split; nra.
    + rewrite Z.min_r, Z.max_l by lia.
      assert ((inject_Z x <= inject_Z v)%Q) by (rewrite <- Zle_Qle; lia).
      split; nra.
  - intros Hup.
    destruct (progress_done t l Ht Hup) as (p' & Hp' & Hp'1).
    rewrite Hp1 in Hp'. injection Hp' as ->.
    rewrite Hval'. apply strict_eq_Fin. rewrite Hpv_eq, Hp'1. ring.
  - rewrite Hval', Hval''.
    destruct (Z.leb_spec v x) as [Hvx|Hvx]; apply le_of_Qle.
    + assert ((inject_Z v <= inject_Z x)%Q) by (rewrite <- Zle_Qle; lia).
      nra.
    + assert ((inject_Z x <= inject_Z v)%Q) by (rewrite <- Zle_Qle; lia).
      nra.
  - destruct (fade_ticks t _ _ cb (now w) (waits ++ [last]) w0 Hf)
      as (Hf' & _). apply Hf'.
Qed.

(** A fade from 0 to 200 over 100 ms, ticked at 10, 20, 30 and 50 ms and
    then at 110 ms: the value stays within [[0, 200]] and does not
    decrease. *)
Lemma fade_interpolates_witness :
  let w := boot (mkLed initial_state 255) 0 in
  let w' :=
    ticks_after ([10; 10; 10] ++ [20])%N
      (fade (of_Z 200) (TNumber (Fin 100)) None w) in
  between 0 200 (value (st w')) /\
  le (value (st w')) (value (st (ticks_after [60%N] w'))) = true.
Proof.
  intros w w'.
  destruct (fade_interpolates w 0 200 100 None [10; 10; 10]%N 20 [60%N])
    as (Hb & _ & Hm & _).
  - lia.
  - lia.
  - reflexivity.
  - reflexivity.
  - split; [exact Hb|exact Hm].
Defined.

(** X11: a fade with a negative time never completes: however often its
    timer ticks, [complete] and the callback are not invoked, and the
    device stays running. *)
Theorem negative_time_never_completes
    (w : world) (val : number) (t : Q) (cb : option callback)
    (waits : list N) :
  (t < 0)%Q ->
  let w' := ticks_after waits (fade val (TNumber (Fin t)) cb w) in
  complete_calls (trace w') = complete_calls (trace w) /\
  match cb with
  | Some f => user_calls f (trace w') = user_calls f (trace w)
  | None => True
  end /\
  isRunning (st w') = true.
Proof.
  intros Ht w'.
  assert (Htruthy : truthy (Fin t) = true)
    by (apply truthy_nonzero; intros He; rewrite He in Ht; lra).
  destruct (fade_arms val t cb w Htruthy) as (Hf & Hnow & _ & Htr).
  set (w0 := fade val (TNumber (Fin t)) cb w) in *.
  assert (Hstart : now w <= now w0) by lia.
  destruct (negative_fade_ticks _ _ _ _ _ waits w0 Ht Hstart Hf)
    as (Hc & Hu).
  destruct (fade_ticks t _ _ cb (now w) waits w0 Hf) as (Hf' & _).
  fold w' in Hc, Hu, Hf'. rewrite Htr in Hc, Hu.
  split; [exact Hc|]. split; [exact Hu|apply Hf'].
Qed.

Lemma negative_time_never_completes_witness :
  let w := boot (mkLed initial_state 255) 0 in
  complete_calls
    (trace (ticks_after [100; 100; 100]%N
              (fade (Fin 255) (TNumber (Fin (-100))) None w))) = 0%nat.
Proof.
  intros w.
  destruct (negative_time_never_completes w (Fin 255) (-100) None
              [100; 100; 100]%N) as (Hc & _).
  - reflexivity.
  - exact Hc.
Defined.

(** X12: a fade whose time is 0 or [NaN] is the fade with the time
    omitted: it takes the default 1000 ms rather than completing at
    once. *)
Theorem falsy_time_means_default
    (val n : number) (cb : option callback) (w : world) :
  truthy n = false ->
  fade val (TNumber n) cb w = fade val TOmitted cb w.
Proof.
  intros Hn. unfold fade, animate. cbv zeta.
  cbn [duration delta complete step delay]. rewrite Hn.
  destruct (interval (st w)); reflexivity.
Qed.

Lemma falsy_time_means_default_witness :
  fade (of_Z 1) (TNumber (of_Z 0)) None (boot (mkLed initial_state 1) 0)
  = fade (of_Z 1) TOmitted None (boot (mkLed initial_state 1) 0).
Proof.
  apply (falsy_time_means_default (of_Z 1) (of_Z 0) None
           (boot (mkLed initial_state 1) 0)).
  reflexivity.
Defined.

(** ** The direction of a pulse *)

Lemma directions_frame w w' :
  direction (st w') = direction (st w) -> timers w' = timers w ->
  directions_ok w -> directions_ok w'.
Proof. unfold directions_ok. intros -> ->. auto. Qed.

Lemma animate_directions o w :
  match step o with PulseStep _ d => unit_direction d | _ => True end ->
  directions_ok w -> directions_ok (animate o w).
Proof.
  intros Ho [Hd Ht]. unfold animate.
  destruct (interval (st w)); (split; [exact Hd|]); simpl;
    apply map_Forall_insert_2; try exact Ho; try exact Ht.
  apply map_Forall_delete. exact Ht.
Qed.

Lemma pulse_directions t cb w : directions_ok w -> directions_ok (pulse t cb w).
Proof.
  intros H. unfold pulse. destruct t; apply animate_directions; try exact H;
    simpl; unfold unit_direction; destruct (strict_eq _ _); auto.
Qed.

Lemma fade_directions v t cb w : directions_ok w -> directions_ok (fade v t cb w).
Proof.
  intros H. unfold fade. destruct t; apply animate_directions; try exact H;
    exact I.
Qed.

Lemma stop_directions w : directions_ok w -> directions_ok (stop w).
Proof.
  intros [Hd Ht]. unfold stop.
  destruct (interval (st w)); (split; [exact Hd|]); simpl; [|exact Ht].
  apply map_Forall_delete. exact Ht.
Qed.

Lemma blink_directions d cb w : directions_ok w -> directions_ok (blink d cb w).
Proof.
  intros [Hd Ht]. unfold blink, stop.
  destruct (interval (st w)); destruct d; (split; [exact Hd|]); simpl;
    apply map_Forall_insert_2; try exact I; try exact Ht;
    apply map_Forall_delete; exact Ht.
Qed.

Lemma toggle_directions w : directions_ok w -> directions_ok (toggle w).
Proof.
  apply directions_frame; unfold toggle; destruct (isOn w); reflexivity.
Qed.

Lemma call_directions m w : directions_ok w -> directions_ok (call m w).
Proof.
  intros H.
  destruct m as [| | |d cb|v|t cb|v t cb|t cb|t cb|]; cbn [call].
  - exact H.
  - exact H.
  - apply toggle_directions, H.
  - apply blink_directions, H.
  - exact H.
  - apply pulse_directions, H.
  - apply fade_directions, H.
  - apply fade_directions, H.
  - apply fade_directions, H.
  - apply stop_directions, H.
Qed.

Lemma fire_directions h w : directions_ok w -> directions_ok (fire h w).
Proof.
  intros H. unfold fire. destruct (timers w !! h) as [e|] eqn:E; [|exact H].
  pose proof (map_Forall_lookup_1 _ _ _ _ (proj2 H) E) as He.
  unfold timer_direction_ok in He.
  destruct (on_tick e) as [f|start opts]; cbn [run_timer].
  - unfold blink_tick.
    apply (directions_frame (toggle (log (Tick h) w)));
      [destruct f; reflexivity|destruct f; reflexivity|].
    apply toggle_directions. exact H.
  - unfold animate_tick.
    set (d := apply_delta _ _).
    assert (Hstep : directions_ok (run_step (step opts) d (log (Tick h) w))).
    { destruct (step opts) as [u dir|a b]; [|exact H].
      split; [exact He|exact (proj2 H)]. }
    destruct (strict_eq _ _); [|exact Hstep].
    destruct (complete opts) as [[time cb|cb]|]; [| |exact Hstep];
      unfold run_complete.
    + apply (directions_frame
               (pulse (TNumber time) cb
                  (log CompleteCall (run_step (step opts) d (log (Tick h) w)))));
        [destruct cb; reflexivity|destruct cb; reflexivity|].
      apply pulse_directions. exact Hstep.
    + apply (directions_frame (run_step (step opts) d (log (Tick h) w)));
        [destruct cb; reflexivity|destruct cb; reflexivity|exact Hstep].
Qed.

(** X13: the stored direction of a constructed device is always 1 or
    -1. *)
Theorem direction_is_unit (w : world) :
  reachable w -> direction (st w) = 1 \/ direction (st w) = -1.
Proof.
  intros (gp & io & device & l & t0 & ins & Hl & ->).
  assert (H0 : directions_ok (boot l t0)).
  { split; [|apply map_Forall_empty].
    unfold Led_constructor in Hl.
    destruct (normalizeParams io device) as [[ioOpts deviceOpts]|e];
      simpl in Hl; [|discriminate].
    destruct (gp ioOpts "builtin/digital"%string) as [p|e]; simpl in Hl;
      [|discriminate].
    destruct device as [o|]; simpl in Hl; [|discriminate].
    injection Hl as <-. left. destruct (opt_sink o) as [[|]|]; reflexivity. }
  assert (H : directions_ok (run ins (boot l t0))).
  { induction ins as [|i ins IH] using rev_ind; [exact H0|].
    rewrite run_snoc. destruct i as [m|ms|h]; cbn [exec].
    - apply call_directions, IH.
    - exact IH.
    - apply fire_directions, IH. }
  exact (proj1 H).
Qed.

Lemma trunc_compat q q' : (q == q')%Q -> trunc q = trunc q'.
Proof.
  destruct q as [n d], q' as [n' d']. unfold Qeq, trunc; simpl. intros E.
  rewrite <- (Z.quot_mul_cancel_r n (Z.pos d) (Z.pos d')) by lia.
  rewrite E.
  rewrite (Z.mul_comm (Z.pos d) (Z.pos d')).
  apply Z.quot_mul_cancel_r; lia.
Qed.

Lemma progress_early t l :
  (0 < t)%Q -> (inject_Z l < t)%Q ->
  progress_of l (Fin t) = Fin (inject_Z l / t).
Proof.
  intros Ht Hl. unfold progress_of, div, of_Z.
  assert (E : Qeq_bool t 0 = false).
  { destruct (Qeq_bool t 0) eqn:E; [|reflexivity].
    apply Qeq_bool_iff in E. lra. }
  rewrite E. unfold gt, lt.
  assert (Hlt : (inject_Z l / t < 1)%Q).
  { apply Qlt_shift_div_r; [exact Ht|]. lra. }
  assert (E1 : Qlt_bool (inject_Z 1) (inject_Z l / t) = false).
  { apply Qlt_bool_false. change (inject_Z 1) with 1%Q. lra. }
  rewrite E1. reflexivity.
Qed.

Lemma pulse_tick_value H t f target start ms w :
  0 < H < 2 ^ 31 -> (0 < t)%Q ->
  0 <= now w + Z.of_N ms - start ->
  (inject_Z (now w + Z.of_N ms - start) < t)%Q ->
  pulsing H t f target start w ->
  let p := (inject_Z (now w + Z.of_N ms - start) / t)%Q in
  strict_eq (value (st (tick_after ms w)))
    (if strict_eq target (of_Z H) then Fin (inject_Z H * p)
     else of_Z (Z.lxor (trunc (inject_Z H * p)) H)) = true /\
  direction (st (tick_after ms w)) =
    (if strict_eq target (of_Z H) then 1 else -1).
Proof.
  intros HH Ht Hl0 Hl (HHIGH & Hrun & h & u & Hi & Hu & Htimer) p.
  unfold tick_after. rewrite Hi. unfold fire.
  change (timers (elapse ms w)) with (timers w). rewrite Htimer.
  cbn [on_tick run_timer]. unfold animate_tick.
  cbn [duration delta step complete apply_delta].
  set (w1 := log (Tick h) (elapse ms w)).
  change (now w1) with (now w + Z.of_N ms).
  rewrite (progress_under_way t Ht _ Hl), (progress_early t _ Ht Hl).
  fold p.
  destruct u as [uq| | |]; try discriminate. apply strict_eq_Fin in Hu.
  assert (Hp0 : (0 <= p)%Q).
  { subst p. apply Qle_shift_div_l; [exact Ht|].
    assert ((0 <= inject_Z (now w + Z.of_N ms - start))%Q)
      by (change 0%Q with (inject_Z 0); rewrite <- Zle_Qle; lia).
    lra. }
  assert (Hp1 : (p <= 1)%Q).
  { subst p. apply Qle_shift_div_r; [exact Ht|]. lra. }
  assert (HHq : (0 < inject_Z H)%Q)
    by (change 0%Q with (inject_Z 0); rewrite <- Zlt_Qlt; lia).
  destruct (strict_eq target (of_Z H)).
  - split; [|reflexivity].
    change (strict_eq (Fin (uq * p)) (Fin (inject_Z H * p)) = true).
    apply strict_eq_Fin. rewrite Hu. reflexivity.
  - split; [|reflexivity].
    change (strict_eq (bitxor (Fin (uq * p)) (of_Z (HIGH (led w))))
              (of_Z (Z.lxor (trunc (inject_Z H * p)) H)) = true).
    rewrite HHIGH. unfold bitxor, to_int32, of_Z.
    rewrite trunc_inject_Z, (trunc_compat (uq * p) (inject_Z H * p))
      by (rewrite Hu; reflexivity).
    assert (Hb : 0 <= trunc (inject_Z H * p) <= H)
      by (apply trunc_bounds; nra).
    rewrite !wrap32_small by lia.
    apply strict_eq_Fin. reflexivity.
Qed.

(** The stored value part way through the first fade of a pulse, in the
    arithmetic of the model. *)
Lemma pulse_ramp_value
    (w : world) (t : Q) (f : callback) (waits : list N) (last : N) :
  0 < HIGH (led w) < 2 ^ 31 ->
  between LOW (HIGH (led w)) (value (st w)) ->
  (0 < t)%Q ->
  (inject_Z (total waits + Z.of_N last) < t)%Q ->
  let H := HIGH (led w) in
  let p := (inject_Z (total waits + Z.of_N last) / t)%Q in
  let w' :=
    ticks_after (waits ++ [last]) (pulse (TNumber (Fin t)) (Some f) w) in
  strict_eq (value (st w'))
    (if strict_eq (value (st w)) (of_Z H)
     then of_Z (Z.lxor (trunc (inject_Z H * p)) H)
     else Fin (inject_Z H * p)) = true /\
  direction (st w') = (if strict_eq (value (st w)) (of_Z H) then -1 else 1).
Proof.
  intros HH Hv Ht Hl H p w'.
  destruct (pulse_arms H t f HH Ht w eq_refl Hv) as (Harmed & _ & Hnow).
  set (w0 := pulse (TNumber (Fin t)) (Some f) w) in *.
  pose proof (total_nonneg waits) as Hnn.
  assert (Hearly : (inject_Z (now w0 + total waits - now w) < t)%Q).
  { eapply Qle_lt_trans; [|exact Hl]. rewrite <- Zle_Qle. lia. }
  destruct (early_ticks_pulsing H t f Ht _ (now w) waits w0 Hearly Harmed)
    as (Hp1 & Hnow1 & _).
  subst w'. unfold ticks_after. rewrite foldl_app. cbn [foldl].
  set (w1 := foldl (fun w ms => tick_after ms w) w0 waits) in *.
  assert (El : now w1 + Z.of_N last - now w = total waits + Z.of_N last)
    by lia.
  assert (Hl0 : 0 <= now w1 + Z.of_N last - now w) by lia.
  assert (Hl1 : (inject_Z (now w1 + Z.of_N last - now w) < t)%Q)
    by (rewrite El; exact Hl).
  destruct (pulse_tick_value H t f _ (now w) last w1 HH Ht Hl0 Hl1 Hp1)
    as [Hval Hdir].
  rewrite El in Hval. fold p in Hval.
  assert (Htarget : strict_eq (pulse_target H (value (st w))) (of_Z H)
                    = negb (strict_eq (value (st w)) (of_Z H))).
  { unfold pulse_target. destruct (strict_eq (value (st w)) (of_Z H)).
    - apply (extremes_differ H HH).
    - apply strict_eq_Fin. reflexivity. }
  rewrite Htarget in Hval, Hdir.
  destruct (strict_eq (value (st w)) (of_Z H)); simpl in *; auto.
Qed.

Lemma strict_eq_sym a b : strict_eq a b = strict_eq b a.
Proof.
  destruct a as [x| | |], b as [y| | |]; simpl; try reflexivity.
  destruct (Qeq_bool x y) eqn:E1, (Qeq_bool y x) eqn:E2; try reflexivity.
  - apply Qeq_bool_iff in E1. apply Qeq_bool_neq in E2.
    exfalso. apply E2. symmetry. exact E1.
  - apply Qeq_bool_iff in E2. apply Qeq_bool_neq in E1.
    exfalso. apply E1. symmetry. exact E2.
Qed.

Lemma strict_eq_between a q lo hi :
  strict_eq a (Fin q) = true -> between lo hi (Fin q) -> between lo hi a.
Proof.
  destruct a as [x| | |]; simpl; try discriminate.
  intros E [Hlo Hhi]. apply Qeq_bool_iff in E. rewrite E. auto.
Qed.

(** X14: while the first fade of a pulse is under way, the direction is
    -1 when the pulse started at [HIGH] and 1 otherwise.  Going up, the
    stored value lies within the range and is the one the same ticks
    give on a device that started at 0, whatever value the pulse started
    from: the fade restarts from 0 (a tick right at the start stores 0).
    Going down, the stored value is a non-negative integer, at most
    [HIGH] when [HIGH] is of the form [2^k - 1]. *)
Theorem pulse_ramps
    (w : world) (t : Q) (f : callback) (waits : list N) (last : N) :
  0 < HIGH (led w) < 2 ^ 31 ->
  between LOW (HIGH (led w)) (value (st w)) ->
  (0 < t)%Q ->
  (inject_Z (total waits + Z.of_N last) < t)%Q ->
  let H := HIGH (led w) in
  let ticked := fun w0 : world =>
    ticks_after (waits ++ [last]) (pulse (TNumber (Fin t)) (Some f) w0) in
  direction (st (ticked w)) =
    (if strict_eq (value (st w)) (of_Z H) then -1 else 1) /\
  (strict_eq (value (st w)) (of_Z H) = false ->
   strict_eq (value (st (ticked w)))
     (value (st (ticked (set_value (of_Z 0) w)))) = true /\
   between 0 H (value (st (ticked w))) /\
   (total waits + Z.of_N last = 0 ->
    strict_eq (value (st (ticked w))) (of_Z 0) = true)) /\
  (strict_eq (value (st w)) (of_Z H) = true ->
   exists z,
     strict_eq (value (st (ticked w))) (of_Z z) = true /\
     0 <= z /\ (pwm_range H -> z <= H)).
Proof.
  intros HH Hv Ht Hl H ticked.
  destruct (pulse_ramp_value w t f waits last HH Hv Ht Hl) as [Hval Hdir].
  fold H in Hval, Hdir. fold (ticked w) in Hval, Hdir.
  set (p := (inject_Z (total waits + Z.of_N last) / t)%Q) in *.
  pose proof (total_nonneg waits) as Hnn.
  assert (Hl0 : (0 <= inject_Z (total waits + Z.of_N last))%Q)
    by (change 0%Q with (inject_Z 0); rewrite <- Zle_Qle; lia).
  assert (Hp0 : (0 <= p)%Q)
    by (subst p; apply Qle_shift_div_l; [exact Ht|lra]).
  assert (Hp1 : (p <= 1)%Q)
    by (subst p; apply Qle_shift_div_r; [exact Ht|lra]).
  assert (HHq : (0 < inject_Z H)%Q)
    by (change 0%Q with (inject_Z 0); rewrite <- Zlt_Qlt; subst H; lia).
  split; [exact Hdir|]. split.
  - intros Hup. rewrite Hup in Hval.
    assert (Hw0 : strict_eq (value (st (ticked (set_value (of_Z 0) w))))
                    (Fin (inject_Z H * p)) = true).
    { destruct (pulse_ramp_value (set_value (of_Z 0) w) t f waits last)
        as [Hval0 _]; try assumption.
      - simpl. unfold LOW. rewrite <- !Zle_Qle. subst H. lia.
      - change (value (st (set_value (of_Z 0) w))) with (of_Z 0) in Hval0.
        change (HIGH (led (set_value (of_Z 0) w))) with H in Hval0.
        assert (E : strict_eq (of_Z 0) (of_Z H) = false)
          by exact (extremes_differ H HH).
        rewrite E in Hval0. exact Hval0. }
    split; [|split].
    + rewrite (strict_eq_trans_l _ _ _ Hval), strict_eq_sym. exact Hw0.
    + apply (strict_eq_between _ _ _ _ Hval). simpl.
      change (inject_Z 0) with 0%Q. split; nra.
    + intros Hzero. rewrite (strict_eq_trans_l _ _ _ Hval).
      apply strict_eq_Fin. subst p. rewrite Hzero.
      change (inject_Z 0) with 0%Q. unfold Qdiv. ring.
  - intros Hdown. rewrite Hdown in Hval.
    exists (Z.lxor (trunc (inject_Z H * p)) H). split; [exact Hval|].
    assert (Hb : 0 <= trunc (inject_Z H * p) <= H)
      by (apply trunc_bounds; nra).
    split.
    + apply Z.lxor_nonneg. subst H. lia.
    + intros (k & Hk & Hpwm). rewrite Hpwm in Hb |- *.
      rewrite lxor_ones; lia.
Qed.

(** An 8 bit device at the value 100 starts a pulse over 200 ms: 50 ms
    later the direction is 1 and the value is the one a pulse from 0
    gives, within the range. *)
Lemma pulse_ramps_witness :
  let w := boot (mkLed (mkState false false (of_Z 100) 1 None None) 255) 0 in
  let ticked := fun w0 : world =>
    ticks_after ([10; 10] ++ [30])%N
      (pulse (TNumber (Fin 200)) (Some 7%nat) w0) in
  direction (st (ticked w)) = 1 /\
  strict_eq (value (st (ticked w)))
    (value (st (ticked (set_value (of_Z 0) w)))) = true /\
  between 0 255 (value (st (ticked w))).
Proof.
  intros w ticked.
  destruct (pulse_ramps w 200 7%nat [10; 10]%N 30) as (Hdir & Hup & _).
  - simpl. lia.
  - simpl. split; vm_compute; discriminate.
  - reflexivity.
  - reflexivity.
  - destruct (Hup eq_refl) as (Hsame & Hb & _).
    split; [exact Hdir|]. split; [exact Hsame|exact Hb].
Defined.

Lemma direction_is_unit_witness :
  let w := run [Call (Blink VUndefined None)]
             (boot (mkLed initial_state 1) 0) in
  direction (st w) = 1 \/ direction (st w) = -1.
Proof. intros w. exact (direction_is_unit w blinking_reachable). Defined.
